(** * Fetch the Bone: the simulation loop of [game.js], embedded and verified

    The game keeps all of its state in top-level [let] variables that the
    event listeners and the frame callback [update] mutate.  The embedding
    collects those variables in one record, [Game], and turns every listener
    and [update] itself into a function on that record which also returns the
    DOM and scheduler calls it makes, in order.

    JavaScript numbers are IEEE 754 binary64 values; they are embedded as the
    kernel's primitive [float], whose operations are the same binary64
    operations with round-to-nearest-even.  A JavaScript comparison [a > b] is
    [b <? a] and [a >= b] is [b <=? a]; both are false when an operand is NaN.

    [CANVAS_W] and [CANVAS_H] are read from the page's canvas element, which
    is not part of [game.js]; they are parameters of the development.

    Evaluation of a frame on given numbers is by computation on primitive
    floats.  Facts that hold for all numbers (the order of comparisons, that
    rounding produces no NaN) are derived from the library's specification
    of the primitive operations in terms of [spec_float]. *)

From Stdlib Require Import Floats.
From stdpp Require Import gmap strings list.

Set Warnings "-inexact-float".

(** ** Numbers *)

Module Math.

(** [Math.max] and [Math.min] of two arguments (ECMAScript 21.3.2.24/25):
    NaN if an argument is NaN, and [+0] counts as larger than [-0]. *)
Definition max (a b : float) : float :=
  if is_nan a || is_nan b then nan
  else if (a <? b)%float then b
  else if (b <? a)%float then a
  else if get_sign a then b else a.

Definition min (a b : float) : float :=
  if is_nan a || is_nan b then nan
  else if (a <? b)%float then a
  else if (b <? a)%float then b
  else if get_sign a then a else b.

End Math.

(** The class of a float, read off its specification-level value. *)
Definition sf_is_nan (s : spec_float) : bool :=
  match s with S754_nan => true | _ => false end.

Definition sf_is_finite (s : spec_float) : bool :=
  match s with S754_zero _ | S754_finite _ _ _ => true | _ => false end.

(** [rand(min,max)] with [r] the value that [Math.random()] returns. *)
Definition rand (r min max : float) : float := (r * (max - min) + min)%float.

(** ** Entities *)

Module Player.
Record t := mk { x : float; y : float; w : float; h : float; speed : float }.
Definition set_x (v : float) (p : t) : t := mk v (y p) (w p) (h p) (speed p).
End Player.

Module Bone.
Record t := mk { x : float; y : float; vy : float; size : float }.
End Bone.

(** The top-level variables of [game.js].  [keys] is the object used as a map
    from lower-cased key names to booleans, embedded as the map of its own
    properties; [mouseX] and [handXNormalized] are [null] or a number. *)
Record Game := mkGame {
  score : float;
  lives : float;
  running : bool;
  player : Player.t;
  bones : list Bone.t;
  spawnTimer : float;
  spawnInterval : float;
  keys : gmap string bool;
  mouseX : option float;
  useHandControl : bool;
  handXNormalized : option float
}.

Definition set_score (v : float) (g : Game) : Game :=
  mkGame v (lives g) (running g) (player g) (bones g) (spawnTimer g)
    (spawnInterval g) (keys g) (mouseX g) (useHandControl g) (handXNormalized g).
Definition set_lives (v : float) (g : Game) : Game :=
  mkGame (score g) v (running g) (player g) (bones g) (spawnTimer g)
    (spawnInterval g) (keys g) (mouseX g) (useHandControl g) (handXNormalized g).
Definition set_running (v : bool) (g : Game) : Game :=
  mkGame (score g) (lives g) v (player g) (bones g) (spawnTimer g)
    (spawnInterval g) (keys g) (mouseX g) (useHandControl g) (handXNormalized g).
Definition set_player (v : Player.t) (g : Game) : Game :=
  mkGame (score g) (lives g) (running g) v (bones g) (spawnTimer g)
    (spawnInterval g) (keys g) (mouseX g) (useHandControl g) (handXNormalized g).
Definition set_bones (v : list Bone.t) (g : Game) : Game :=
  mkGame (score g) (lives g) (running g) (player g) v (spawnTimer g)
    (spawnInterval g) (keys g) (mouseX g) (useHandControl g) (handXNormalized g).
Definition set_spawnTimer (v : float) (g : Game) : Game :=
  mkGame (score g) (lives g) (running g) (player g) (bones g) v
    (spawnInterval g) (keys g) (mouseX g) (useHandControl g) (handXNormalized g).
Definition set_spawnInterval (v : float) (g : Game) : Game :=
  mkGame (score g) (lives g) (running g) (player g) (bones g) (spawnTimer g)
    v (keys g) (mouseX g) (useHandControl g) (handXNormalized g).
Definition set_keys (v : gmap string bool) (g : Game) : Game :=
  mkGame (score g) (lives g) (running g) (player g) (bones g) (spawnTimer g)
    (spawnInterval g) v (mouseX g) (useHandControl g) (handXNormalized g).
Definition set_mouseX (v : option float) (g : Game) : Game :=
  mkGame (score g) (lives g) (running g) (player g) (bones g) (spawnTimer g)
    (spawnInterval g) (keys g) v (useHandControl g) (handXNormalized g).
Definition set_useHandControl (v : bool) (g : Game) : Game :=
  mkGame (score g) (lives g) (running g) (player g) (bones g) (spawnTimer g)
    (spawnInterval g) (keys g) (mouseX g) v (handXNormalized g).
Definition set_handXNormalized (v : option float) (g : Game) : Game :=
  mkGame (score g) (lives g) (running g) (player g) (bones g) (spawnTimer g)
    (spawnInterval g) (keys g) (mouseX g) (useHandControl g) v.

(** What a listener or [update] does to the page and the scheduler.  [Draw g]
    is a call of [draw()] when the variables hold [g]; the game-over alert
    reads [score] only when its timeout fires, so it carries no value. *)
Inductive effect :=
  | SetScoreText (s : float)
  | SetLivesText (l : float)
  | GameOverAlertIn50ms
  | Draw (g : Game)
  | RequestAnimationFrame.

(** The values [Math.random()] returns on a frame that spawns a bone, in the
    order of the calls: for [size], for [x], for [vy]. *)
Record Rand := mkRand { rnd_size : float; rnd_x : float; rnd_vy : float }.

(** [keys] is created as [{}], so besides its own properties it inherits
    those of [Object.prototype]: functions, and for [__proto__] the prototype
    object itself, all truthy. *)
Definition object_prototype_names : list string :=
  ["constructor"; "hasOwnProperty"; "isPrototypeOf"; "propertyIsEnumerable";
   "toLocaleString"; "toString"; "valueOf"; "__proto__";
   "__defineGetter__"; "__defineSetter__";
   "__lookupGetter__"; "__lookupSetter__"].

Definition inherited (k : string) : bool :=
  existsb (String.eqb k) object_prototype_names.

(** A property lookup [keys[k]] used as a condition: an own property gives
    its value, an inherited one is truthy, and [undefined] is falsy. *)
Definition key_down (ks : gmap string bool) (k : string) : bool :=
  match ks !! k with Some b => b | None => inherited k end.

(** The assignment [keys[k] = v] of a boolean: it creates or overwrites an
    own property, except for [__proto__], whose setter ignores a value that
    is neither an object nor [null]. *)
Definition assign_key (k : string) (v : bool) (ks : gmap string bool)
  : gmap string bool :=
  if String.eqb k "__proto__" then ks else <[k := v]> ks.

Section Canvas.

Variables CANVAS_W CANVAS_H : float.

Definition initial : Game :=
  {| score := 0; lives := 3; running := false;
     player := Player.mk (CANVAS_W / 2) (CANVAS_H - 80) 120 80 8;
     bones := []; spawnTimer := 0; spawnInterval := 80;
     keys := ∅; mouseX := None;
     useHandControl := false; handXNormalized := None |}.

(** [resetGame()] *)
Definition resetGame (g : Game) : Game * list effect :=
  let g := set_running true (set_bones [] (set_lives 3 (set_score 0 g))) in
  (g, [SetScoreText (score g); SetLivesText (lives g)]).

(** *** [update]: spawn bones (lines 69-82) *)
Definition spawn_bones (r : Rand) (g : Game) : Game :=
  let g := set_spawnTimer (spawnTimer g + 1) g in
  if (spawnInterval g <=? spawnTimer g)%float then
    let g := set_spawnTimer 0 g in
    let size := rand (rnd_size r) 28 48 in
    let b := Bone.mk (rand (rnd_x r) 20 (CANVAS_W - 20)) (-50)
                     (rand (rnd_vy r) 2.0 4.0) size in
    let g := set_bones (bones g ++ [b]) g in
    if (30 <? spawnInterval g)%float
    then set_spawnInterval (spawnInterval g - 0.5) g
    else g
  else g.

(** *** [update]: control player (lines 84-98) *)
Definition targetX (g : Game) : float :=
  let p := player g in
  let t := Player.x p in
  let t := if key_down (keys g) "arrowleft" || key_down (keys g) "a"
           then (t - Player.speed p * 2)%float else t in
  let t := if key_down (keys g) "arrowright" || key_down (keys g) "d"
           then (t + Player.speed p * 2)%float else t in
  let t := match mouseX g with
           | Some m => (m - Player.w p / 2)%float
           | None => t
           end in
  let t := match useHandControl g, handXNormalized g with
           | true, Some hx => (hx * (CANVAS_W - Player.w p))%float
           | _, _ => t
           end in
  t.

(** [player.x += (targetX - player.x) * 0.25] *)
Definition smooth (x t : float) : float := (x + (t - x) * 0.25)%float.

(** [Math.max(0, Math.min(hi, x))] *)
Definition clamp (hi x : float) : float := Math.max 0 (Math.min hi x).

Definition control_player (g : Game) : Game :=
  let t := targetX g in
  let p := player g in
  let p := Player.set_x (smooth (Player.x p) t) p in
  let p := Player.set_x (clamp (CANVAS_W - Player.w p) (Player.x p)) p in
  set_player p g.

(** *** [update]: update bones (lines 100-128) *)

(** [b.y += b.vy; b.vy += 0.03] *)
Definition fall (b : Bone.t) : Bone.t :=
  let b := Bone.mk (Bone.x b) (Bone.y b + Bone.vy b) (Bone.vy b) (Bone.size b) in
  Bone.mk (Bone.x b) (Bone.y b) (Bone.vy b + 0.03) (Bone.size b).

(** The two nested conditions of "collision with dog" (lines 107-108). *)
Definition collision_with_dog (p : Player.t) (b : Bone.t) : bool :=
  if (Player.y p <? Bone.y b + Bone.size b)%float
     && (Bone.y b <? Player.y p + Player.h p)%float
  then (Player.x p - 20 <? Bone.x b)%float
       && (Bone.x b <? Player.x p + Player.w p + 20)%float
  else false.

(** The condition of "missed" (line 118). *)
Definition missed (b : Bone.t) : bool := (CANVAS_H + 50 <? Bone.y b)%float.

Definition World : Type := Game * list effect.

(** One iteration of the [for] loop, at index [i].  Reading [bones[i]] past
    the end gives [undefined], and [b.y] then throws: [None]. *)
Definition loop_body (i : nat) (wd : World) : option World :=
  let '(g, out) := wd in
  b ← bones g !! i;
  let b := fall b in
  let g := set_bones (<[i := b]> (bones g)) g in
  if collision_with_dog (player g) b then
    let g := set_bones (delete i (bones g)) g in
    let g := set_score (score g + 10) g in
    Some (g, out ++ [SetScoreText (score g)])
  else if missed b then
    let g := set_bones (delete i (bones g)) g in
    let g := set_lives (lives g - 1) g in
    let out := out ++ [SetLivesText (lives g)] in
    if (lives g <=? 0)%float
    then Some (set_running false g, out ++ [GameOverAlertIn50ms])
    else Some (g, out)
  else Some (g, out).

(** [for(let i = n-1; i >= 0; i--)] *)
Fixpoint bones_loop (n : nat) (wd : World) : option World :=
  match n with
  | O => Some wd
  | S i => wd ← loop_body i wd; bones_loop i wd
  end.

Definition update_bones (g : Game) : option World :=
  bones_loop (length (bones g)) (g, []).

(** [draw()] paints the canvas from [bones], [player], [useHandControl],
    [handXNormalized], [score] and [lives] and assigns nothing; the embedding
    records the call and the variables it paints. *)
Definition draw (g : Game) : list effect := [Draw g].

(** [draw(); requestAnimationFrame(update);] *)
Definition render (wd : World) : World :=
  let '(g, out) := wd in (g, out ++ draw g ++ [RequestAnimationFrame]).

(** *** [update] *)
Definition update (r : Rand) (g : Game) : option World :=
  if negb (running g) then Some (render (g, []))
  else
    let g := spawn_bones r g in
    let g := control_player g in
    wd ← update_bones g;
    Some (render wd).

(** ** Listeners

    Each event is one run of a listener or callback registered by [game.js].
    [KeyDown k] and [KeyUp k] carry [k = e.key.toLowerCase()].  The three
    hand-control events are the assignments that [setupHandControl] and the
    checkbox listener make to the game's variables: control started (line
    229), setup failed (line 239), control switched off (lines 245-246). *)
Inductive event :=
  | KeyDown (k : string)
  | KeyUp (k : string)
  | MouseMove (clientX rect_left : float)
  | StartClick
  | AnimationFrame (r : Rand)
  | HandResults (indexTipX : option float)
  | HandControlStarted
  | HandControlFailed
  | HandControlOff.

Definition handle (e : event) (g : Game) : option World :=
  match e with
  | KeyDown k => Some (set_keys (assign_key k true (keys g)) g, [])
  | KeyUp k => Some (set_keys (assign_key k false (keys g)) g, [])
  | MouseMove clientX rect_left =>
      Some (set_mouseX (Some (clientX - rect_left)%float) g, [])
  | StartClick => Some (resetGame g)
  | AnimationFrame r => update r g
  | HandResults hx => Some (set_handXNormalized hx g, [])
  | HandControlStarted => Some (set_useHandControl true g, [])
  | HandControlFailed => Some (set_useHandControl false g, [])
  | HandControlOff =>
      Some (set_handXNormalized None (set_useHandControl false g), [])
  end.

(** The states the page can be in: the initial values of the variables, and
    whatever a listener leaves. *)
Inductive reachable : Game → Prop :=
  | reachable_initial : reachable initial
  | reachable_handle g e g' out :
      reachable g → handle e g = Some (g', out) → reachable g'.

(** Running a sequence of events, oldest first. *)
Fixpoint run (es : list event) (g : Game) : option Game :=
  match es with
  | [] => Some g
  | e :: es => wd ← handle e g; run es wd.1
  end.

(** ** The bone loop in closed form

    The loop walks the array from its last index down and removes the
    current element with [splice], so the elements below the index never
    move: every bone is visited once, last to first.  [settle] is what one
    visit does to the rest of the state, with the surviving bones collected
    in front of those already settled. *)
Definition settle (b : Bone.t) (wd : World) : World :=
  let '(g, out) := wd in
  let b := fall b in
  if collision_with_dog (player g) b then
    let g := set_score (score g + 10) g in
    (g, out ++ [SetScoreText (score g)])
  else if missed b then
    let g := set_lives (lives g - 1) g in
    let out := out ++ [SetLivesText (lives g)] in
    if (lives g <=? 0)%float
    then (set_running false g, out ++ [GameOverAlertIn50ms])
    else (g, out)
  else (set_bones (b :: bones g) g, out).

(** The three outcomes of a visit, as tests on the bone after [fall]. *)
Definition caught (p : Player.t) (b : Bone.t) : bool :=
  (Player.y p <? Bone.y b + Bone.size b)%float
  && (Bone.y b <? Player.y p + Player.h p)%float
  && (Player.x p - 20 <? Bone.x b)%float
  && (Bone.x b <? Player.x p + Player.w p + 20)%float.

Definition lost (p : Player.t) (b : Bone.t) : bool :=
  negb (caught p b) && (CANVAS_H + 50 <? Bone.y b)%float.

Definition kept (p : Player.t) (b : Bone.t) : bool :=
  negb (caught p b) && negb (CANVAS_H + 50 <? Bone.y b)%float.

(** How many elements of a list pass a test. *)
Definition count {A} (f : A → bool) (l : list A) : nat := length (List.filter f l).

Definition add10 (s : float) : float := (s + 10)%float.
Definition sub1 (l : float) : float := (l - 1)%float.

(** ** The specification's wording, for comparison with the code *)

(** A key is held when the last event on it was its keydown: the object
    holds [true] under its name. *)
Definition held (g : Game) (k : string) : bool :=
  bool_decide (keys g !! k = Some true).

(** A direction is held when its arrow key or its letter key is. *)
Definition left_held (g : Game) : bool := held g "arrowleft" || held g "a".
Definition right_held (g : Game) : bool := held g "arrowright" || held g "d".

(** The fixed step of the keyboard. *)
Definition key_step (g : Game) : float := (Player.speed (player g) * 2)%float.

(** The keyboard's target: the player's [x], moved by one step for each
    direction that is held, left first. *)
Definition keyboard_target (g : Game) : float :=
  let x := Player.x (player g) in
  match left_held g, right_held g with
  | false, false => x
  | true, false => (x - key_step g)%float
  | false, true => (x + key_step g)%float
  | true, true => (x - key_step g + key_step g)%float
  end.

(** The external normalized X the reducer may consult: active and available. *)
Definition external_x (g : Game) : option float :=
  if useHandControl g then handXNormalized g else None.

(** Precedence: external control, else pointer, else keyboard. *)
Definition targetX_by_precedence (g : Game) : float :=
  let p := player g in
  match external_x g with
  | Some hx => (hx * (CANVAS_W - Player.w p))%float
  | None =>
      match mouseX g with
      | Some m => (m - Player.w p / 2)%float
      | None => keyboard_target g
      end
  end.

(** The target with one step for each held key, as "each held direction key
    shifts the target by a fixed step" reads: [ArrowLeft] and [A] held
    together move it two steps to the left. *)
Definition targetX_per_key (g : Game) : float :=
  let p := player g in
  let t := Player.x p in
  let t := if held g "arrowleft" then (t - key_step g)%float else t in
  let t := if held g "a" then (t - key_step g)%float else t in
  let t := if held g "arrowright" then (t + key_step g)%float else t in
  let t := if held g "d" then (t + key_step g)%float else t in
  match external_x g with
  | Some hx => (hx * (CANVAS_W - Player.w p))%float
  | None =>
      match mouseX g with
      | Some m => (m - Player.w p / 2)%float
      | None => t
      end
  end.

(** The catch condition with the closed horizontal interval
    [[player.x - 20, player.x + player.w + 20]]. *)
Definition caught_closed (p : Player.t) (b : Bone.t) : bool :=
  (Player.y p <? Bone.y b + Bone.size b)%float
  && (Bone.y b <? Player.y p + Player.h p)%float
  && (Player.x p - 20 <=? Bone.x b)%float
  && (Bone.x b <=? Player.x p + Player.w p + 20)%float.

(** Input Reducer, then Spawner, then Physics & Collision Step, then
    rendering, whatever [running] is. *)
Definition tick_in_sequence (r : Rand) (g : Game) : option World :=
  let g := control_player g in
  let g := spawn_bones r g in
  wd ← update_bones g;
  Some (render wd).

(** The spawn interval after [k] decrements of the difficulty ramp. *)
Definition ramp (k : nat) : float := Nat.iter k (λ s, (s - 0.5)%float) 80%float.

(** What the ramp needs at step [k]: at or above the floor, no higher than
    the step before, a number, and above the floor only before step 100. *)
Definition ramp_ok (k : nat) : bool :=
  (30 <=? ramp k)%float && (ramp (S k) <=? ramp k)%float
  && (ramp k <=? ramp k)%float
  && (if (30 <? ramp k)%float then Nat.ltb k 100 else true).

(** ** Sample states and inputs *)

Definition demo_rand : Rand := mkRand 0.5 0.5 0.5.

(** [Math.random()] values for which [rand(20, 800-20)] is exactly 380. *)
Definition edge_rand : Rand := mkRand 0.5 0.47368421052631576 0.5.

(** A session in play on an 800 by 600 canvas: the player where the page
    first puts it, nothing pressed, no pointer, hand control off. *)
Definition in_play (l : float) (bs : list Bone.t) : Game :=
  {| score := 0; lives := l; running := true;
     player := Player.mk 400 520 120 80 8;
     bones := bs; spawnTimer := 0; spawnInterval := 80;
     keys := ∅; mouseX := None;
     useHandControl := false; handXNormalized := None |}.

(** Bones that the next frame catches, leaves alone at the very edge of the
    catch zone, and loses. *)
Definition bone_over_dog : Bone.t := Bone.mk 420 500 3 30.
Definition bone_on_edge : Bone.t := Bone.mk 380 530 2 30.
Definition bone_below_a : Bone.t := Bone.mk 100 660 3 30.
Definition bone_below_b : Bone.t := Bone.mk 700 700 3 30.

(** A session steered by hand, with the tracker reporting [hx]. *)
Definition by_hand (hx : float) : Game :=
  set_handXNormalized (Some hx) (set_useHandControl true (in_play 3 [])).

(** ** Counters and the page's score and lives elements *)

(** [spawnTimer] after [t] increments from zero. *)
Definition ticks (t : nat) : float := Nat.iter t (λ s, (s + 1)%float) 0%float.

(** The last text a log writes to the score element, if it writes any. *)
Fixpoint last_score_text (out : list effect) : option float :=
  match out with
  | [] => None
  | e :: out =>
      match last_score_text out, e with
      | Some s, _ => Some s
      | None, SetScoreText s => Some s
      | None, _ => None
      end
  end.

(** The last text a log writes to the lives element, if it writes any. *)
Fixpoint last_lives_text (out : list effect) : option float :=
  match out with
  | [] => None
  | e :: out =>
      match last_lives_text out, e with
      | Some l, _ => Some l
      | None, SetLivesText l => Some l
      | None, _ => None
      end
  end.

(** The effects of the bone loop: texts and the game-over alert. *)
Definition hud_effect (e : effect) : bool :=
  match e with
  | SetScoreText _ | SetLivesText _ | GameOverAlertIn50ms => true
  | Draw _ | RequestAnimationFrame => false
  end.

(** What the spawn timer needs at count [t] with the interval at step [k] of
    the ramp, when the timer is below the interval: it is not negative; if
    the next count reaches the interval, zero is below the interval and
    below its next step; otherwise the next count is below the interval and
    at most 79. *)
Definition timer_ok (k t : nat) : bool :=
  if (ticks t <? ramp k)%float then
    (0 <=? ticks t)%float
    && (if (ramp k <=? ticks (S t))%float
        then (ticks 0 <? ramp k)%float && (ticks 0 <? ramp (S k))%float
        else (ticks (S t) <? ramp k)%float && Nat.leb (S t) 79)
  else true.

Definition is_alert (e : effect) : bool :=
  match e with GameOverAlertIn50ms => true | _ => false end.

(** Whether a log schedules the game-over alert. *)
Definition has_alert (out : list effect) : bool := existsb is_alert out.

(** The other event on the same key. *)
Definition key_event (pressed : bool) (k : string) : event :=
  if pressed then KeyDown k else KeyUp k.

Definition is_mouse_move (e : event) : bool :=
  match e with MouseMove _ _ => true | _ => false end.

(** What a stretch [ext] of a log says about the state [g] it started from
    and the state [g'] it ended in: it holds only texts and alerts; the last
    text written to the score (lives) element is the score (lives) of [g'],
    and if none was written the score (lives) has not changed; and [running]
    is cleared exactly when an alert was scheduled. *)
Definition log_ok (g : Game) (ext : list effect) (g' : Game) : Prop :=
  Forall (λ e, hud_effect e = true) ext
  ∧ match last_score_text ext with
    | Some s => s = score g'
    | None => score g' = score g
    end
  ∧ match last_lives_text ext with
    | Some l => l = lives g'
    | None => lives g' = lives g
    end
  ∧ running g' = running g && negb (has_alert ext).

(** An event that delivers numbers: a pointer position and a tracker
    reading that are not NaN. *)
Definition numeric_event (e : event) : bool :=
  match e with
  | MouseMove clientX rect_left => negb (is_nan (clientX - rect_left))
  | HandResults (Some hx) => negb (is_nan hx)
  | _ => true
  end.

(** What the page keeps true while pointer and tracker deliver numbers. *)
Definition numeric (g : Game) : Prop :=
  Player.w (player g) = 120%float ∧ Player.speed (player g) = 8%float
  ∧ is_finite (Player.x (player g)) = true
  ∧ (∀ m, mouseX g = Some m → is_nan m = false)
  ∧ (∀ hx, handXNormalized g = Some hx → is_nan hx = false).

(** A bone high in the air. *)
Definition bone_in_air : Bone.t := Bone.mk 100 100 3 30.

(** Running a sequence of events, oldest first, and collecting what they
    write and schedule. *)
Fixpoint run_log (es : list event) (g : Game) : option World :=
  match es with
  | [] => Some (g, [])
  | e :: es =>
      wd ← handle e g;
      wd' ← run_log es wd.1;
      Some (wd'.1, wd.2 ++ wd'.2)
  end.

(** * Properties *)

(** ** Facts about binary64 comparison and rounding *)

Lemma SFcompare_refl s : sf_is_nan s = false → SFcompare s s = Some Eq.
Proof.
  destruct s as [[]|[]| |[] m e]; try done; intros _; cbn;
    rewrite Z.compare_refl, Pos.compare_cont_refl; reflexivity.
Qed.

Lemma is_nan_spec a : is_nan a = sf_is_nan (Prim2SF a).
Proof.
  unfold is_nan. rewrite FloatAxioms.eqb_spec. unfold SFeqb.
  destruct (sf_is_nan (Prim2SF a)) eqn:H.
  - by destruct (Prim2SF a).
  - by rewrite SFcompare_refl.
Qed.

Lemma is_finite_spec a : is_finite a = sf_is_finite (Prim2SF a).
Proof.
  unfold is_finite, is_infinity. rewrite is_nan_spec.
  rewrite FloatAxioms.eqb_spec, abs_spec. unfold SFeqb.
  replace (Prim2SF infinity) with (S754_infinity false) by reflexivity.
  by destruct (Prim2SF a) as [[]|[]| |[] m e].
Qed.

(** Rounding never produces NaN. *)
Lemma shr_1_nonneg mrs : (0 <= shr_m mrs)%Z → (0 <= shr_m (shr_1 mrs))%Z.
Proof. destruct mrs as [[|[]|[]] r s]; cbn; lia. Qed.

Lemma iter_shr_1_nonneg p mrs :
  (0 <= shr_m mrs)%Z → (0 <= shr_m (SpecFloat.iter_pos shr_1 p mrs))%Z.
Proof.
  revert mrs. induction p as [p IH|p IH|]; intros mrs H; cbn;
    auto using shr_1_nonneg.
Qed.

Lemma shr_fexp_nonneg prec emax m e l :
  (0 <= m)%Z → (0 <= shr_m (shr_fexp prec emax m e l).1)%Z.
Proof.
  intros H. unfold shr_fexp, shr.
  assert (0 <= shr_m (shr_record_of_loc m l))%Z by (by destruct l as [|[]]).
  destruct (_ - e)%Z; cbn; auto using iter_shr_1_nonneg.
Qed.

Lemma round_nearest_even_nonneg m l :
  (0 <= m)%Z → (0 <= round_nearest_even m l)%Z.
Proof. intros H. destruct l as [|[]]; cbn; try destruct (Z.even m); lia. Qed.

Lemma binary_round_aux_not_nan prec emax sx mx ex lx :
  (0 <= mx)%Z → sf_is_nan (binary_round_aux prec emax sx mx ex lx) = false.
Proof.
  intros H. unfold binary_round_aux.
  pose proof (shr_fexp_nonneg prec emax mx ex lx H) as H1.
  destruct (shr_fexp prec emax mx ex lx) as [mrs' e']. cbn [fst] in H1.
  pose proof (shr_fexp_nonneg prec emax _ e' loc_Exact
    (round_nearest_even_nonneg _ (loc_of_shr_record mrs') H1)) as H2.
  destruct (shr_fexp prec emax _ e' loc_Exact) as [mrs'' e'']. cbn [fst] in H2.
  destruct (shr_m mrs''); [done| |lia].
  by destruct (_ <=? _)%Z.
Qed.

Lemma binary_normalize_not_nan prec emax m e sz :
  sf_is_nan (binary_normalize prec emax m e sz) = false.
Proof.
  destruct m; cbn; [done| |]; unfold binary_round;
    destruct (shl_align _ _ _); by apply binary_round_aux_not_nan.
Qed.

Lemma SFadd_not_nan prec emax x y :
  sf_is_finite x = true → sf_is_nan y = false →
  sf_is_nan (SFadd prec emax x y) = false.
Proof.
  destruct x as [[]|[]| |[] mx ex], y as [[]|[]| |[] my ey]; try done;
    intros _ _; apply binary_normalize_not_nan.
Qed.

Lemma SFsub_not_nan prec emax x y :
  sf_is_nan x = false → sf_is_finite y = true →
  sf_is_nan (SFsub prec emax x y) = false.
Proof.
  destruct x as [[]|[]| |[] mx ex], y as [[]|[]| |[] my ey]; try done;
    intros _ _; apply binary_normalize_not_nan.
Qed.

Lemma SFmul_not_nan prec emax x sy my ey :
  sf_is_nan x = false →
  sf_is_nan (SFmul prec emax x (S754_finite sy my ey)) = false.
Proof.
  destruct x as [[]|[]| |[] mx ex]; try done;
    intros _; by apply binary_round_aux_not_nan.
Qed.

Lemma add_not_nan a b :
  is_finite a = true → is_nan b = false → is_nan (a + b) = false.
Proof.
  rewrite !is_nan_spec, is_finite_spec, add_spec. apply SFadd_not_nan.
Qed.

Lemma sub_not_nan a b :
  is_nan a = false → is_finite b = true → is_nan (a - b) = false.
Proof.
  rewrite !is_nan_spec, is_finite_spec, sub_spec. apply SFsub_not_nan.
Qed.

Lemma mul_quarter_not_nan a : is_nan a = false → is_nan (a * 0.25) = false.
Proof.
  rewrite !is_nan_spec, mul_spec.
  replace (Prim2SF 0.25) with (S754_finite false 4503599627370496 (-54)) by reflexivity.
  apply SFmul_not_nan.
Qed.

Lemma SFcompare_antisym a b :
  SFcompare b a = option_map CompOpp (SFcompare a b).
Proof.
  destruct a as [[]|[]| |[] ma ea], b as [[]|[]| |[] mb eb]; try reflexivity;
    cbn; rewrite (Z.compare_antisym ea eb);
    destruct (ea ?= eb)%Z; cbn; try reflexivity;
    rewrite (Pos.compare_cont_antisym ma mb Eq); cbn;
    try rewrite CompOpp_involutive; reflexivity.
Qed.

Lemma ltb_leb a b : (a <? b)%float = true → (a <=? b)%float = true.
Proof.
  rewrite FloatAxioms.ltb_spec, FloatAxioms.leb_spec. unfold SFltb, SFleb.
  by destruct (SFcompare _ _) as [[]|].
Qed.

Lemma eqb_leb a b : (a =? b)%float = true → (a <=? b)%float = true.
Proof.
  rewrite FloatAxioms.eqb_spec, FloatAxioms.leb_spec. unfold SFeqb, SFleb.
  by destruct (SFcompare _ _) as [[]|].
Qed.

Lemma leb_refl a : is_nan a = false → (a <=? a)%float = true.
Proof.
  unfold is_nan. intros H. apply eqb_leb. by destruct (a =? a)%float.
Qed.

Lemma compare_not_nan a b :
  is_nan a = false → is_nan b = false → is_Some (SFcompare (Prim2SF a) (Prim2SF b)).
Proof.
  unfold is_nan. rewrite !FloatAxioms.eqb_spec. unfold SFeqb.
  destruct (Prim2SF a) as [[]|[]| |[] ma ea], (Prim2SF b) as [[]|[]| |[] mb eb];
    cbn; try done; intros; eexists; reflexivity.
Qed.

(** Neither below nor above, and no NaN: equal, so each is at most the other. *)
Lemma not_ltb_leb a b :
  is_nan a = false → is_nan b = false →
  (a <? b)%float = false → (b <=? a)%float = true.
Proof.
  intros Ha Hb. destruct (compare_not_nan a b Ha Hb) as [c Hc].
  rewrite FloatAxioms.ltb_spec, FloatAxioms.leb_spec. unfold SFltb, SFleb.
  rewrite (SFcompare_antisym (Prim2SF a) (Prim2SF b)), Hc.
  by destruct c.
Qed.

Lemma mul_not_nan a b :
  is_nan a = false → is_finite b = true → (0 <? b)%float = true →
  is_nan (a * b) = false.
Proof.
  rewrite !is_nan_spec, is_finite_spec, mul_spec, FloatAxioms.ltb_spec.
  replace (Prim2SF 0) with (S754_zero false) by reflexivity.
  destruct (Prim2SF b) as [[]|[]| |sb mb eb]; try done.
  intros Ha _ _. by apply SFmul_not_nan.
Qed.

Lemma leb_not_nan a b :
  (a <=? b)%float = true → is_nan a = false ∧ is_nan b = false.
Proof.
  rewrite FloatAxioms.leb_spec, !is_nan_spec. unfold SFleb.
  by destruct (Prim2SF a) as [[]|[]| |[] ma ea],
    (Prim2SF b) as [[]|[]| |[] mb eb].
Qed.

Lemma smooth_not_nan x t :
  is_finite x = true → is_nan t = false → is_nan (smooth x t) = false.
Proof.
  intros Hx Ht. unfold smooth.
  by apply add_not_nan, mul_quarter_not_nan, sub_not_nan.
Qed.

(** [Math.min] of two numbers is a number and at most its first argument. *)
Lemma min_le hi x :
  is_nan hi = false → is_nan x = false →
  is_nan (Math.min hi x) = false ∧ (Math.min hi x <=? hi)%float = true.
Proof.
  intros Hhi Hx. unfold Math.min. rewrite Hhi, Hx. cbn [orb].
  destruct (hi <? x)%float eqn:H1; [by auto using leb_refl|].
  destruct (x <? hi)%float eqn:H2; [by auto using ltb_leb|].
  destruct (get_sign hi); auto using leb_refl, not_ltb_leb.
Qed.

(** The clamp puts every number into [[0, hi]], provided [0 <= hi]. *)
Lemma clamp_within hi x :
  (0 <=? hi)%float = true → is_nan x = false →
  (0 <=? clamp hi x)%float = true ∧ (clamp hi x <=? hi)%float = true.
Proof.
  intros H0 Hx. destruct (leb_not_nan _ _ H0) as [_ Hhi].
  destruct (min_le hi x Hhi Hx) as [Hm Hle].
  unfold clamp, Math.max. rewrite Hm.
  change (is_nan 0) with false. cbn [orb].
  destruct (0 <? Math.min hi x)%float eqn:H1; [by auto using ltb_leb|].
  assert ((0 <=? 0)%float = true) as H00 by reflexivity.
  destruct (Math.min hi x <? 0)%float; [done|].
  change (get_sign 0) with false. done.
Qed.

(** ** The bone loop *)

Lemma collision_with_dog_caught p b : collision_with_dog p b = caught p b.
Proof.
  unfold collision_with_dog, caught.
  destruct (Player.y p <? Bone.y b + Bone.size b)%float,
    (Bone.y b <? Player.y p + Player.h p)%float; reflexivity.
Qed.

Lemma insert_middle {A} (l1 l2 : list A) x y :
  <[length l1 := y]> (l1 ++ x :: l2) = l1 ++ y :: l2.
Proof. induction l1 as [|a l1 IH]; [reflexivity|]. cbn. f_equal. exact IH. Qed.

Lemma loop_body_at pre b post g out :
  loop_body (length pre) (set_bones (pre ++ b :: post) g, out)
  = Some (let '(g', out') := settle b (set_bones post g, out) in
          (set_bones (pre ++ bones g') g', out')).
Proof.
  unfold loop_body, settle; cbn [bones set_bones player].
  rewrite list_lookup_middle by reflexivity; cbn [mbind option_bind].
  rewrite insert_middle.
  destruct (collision_with_dog (player g) (fall b)).
  { cbn. by rewrite delete_middle. }
  destruct (missed (fall b)); [|reflexivity].
  cbn [lives set_lives set_bones bones].
  rewrite delete_middle.
  destruct (lives g - 1 <=? 0)%float; reflexivity.
Qed.

Lemma set_bones_same g : set_bones (bones g) g = g.
Proof. by destruct g. Qed.

Lemma bones_loop_foldr pre post g out :
  bones_loop (length pre) (set_bones (pre ++ post) g, out)
  = Some (foldr settle (set_bones post g, out) pre).
Proof.
  revert post g out.
  induction pre as [|b pre IH] using rev_ind; intros post g out.
  { reflexivity. }
  rewrite length_app, Nat.add_comm; cbn [length Nat.add bones_loop].
  rewrite <- app_assoc; cbn [app].
  rewrite loop_body_at; cbn [mbind option_bind].
  rewrite foldr_app; cbn [foldr].
  destruct (settle b (set_bones post g, out)) as [g' out'].
  rewrite IH. by rewrite set_bones_same.
Qed.

Lemma update_bones_foldr g :
  update_bones g = Some (foldr settle (set_bones [] g, []) (bones g)).
Proof.
  unfold update_bones.
  rewrite <- (set_bones_same g) at 2.
  rewrite <- (app_nil_r (bones g)) at 2.
  rewrite bones_loop_foldr. reflexivity.
Qed.

(** A visit reads the player and writes only [score], [lives], [running]
    and [bones]. *)
Lemma settle_frame b g out :
  let g' := (settle b (g, out)).1 in
  player g' = player g ∧ spawnTimer g' = spawnTimer g
  ∧ spawnInterval g' = spawnInterval g ∧ keys g' = keys g
  ∧ mouseX g' = mouseX g ∧ useHandControl g' = useHandControl g
  ∧ handXNormalized g' = handXNormalized g.
Proof.
  unfold settle.
  destruct (collision_with_dog (player g) (fall b)); [done|].
  destruct (missed (fall b)); [|done].
  cbn [lives set_lives]. destruct (lives g - 1 <=? 0)%float; done.
Qed.

Lemma sweep_frame bs g out :
  let g' := (foldr settle (g, out) bs).1 in
  player g' = player g ∧ spawnTimer g' = spawnTimer g
  ∧ spawnInterval g' = spawnInterval g ∧ keys g' = keys g
  ∧ mouseX g' = mouseX g ∧ useHandControl g' = useHandControl g
  ∧ handXNormalized g' = handXNormalized g.
Proof.
  induction bs as [|b bs IH]; [done|].
  cbn [foldr]. destruct (foldr settle (g, out) bs) as [g1 out1].
  pose proof (settle_frame b g1 out1) as Hb. cbn [fst] in *.
  intuition congruence.
Qed.

Lemma sweep_player bs g out :
  player (foldr settle (g, out) bs).1 = player g.
Proof. apply (sweep_frame bs g out). Qed.

(** The case analysis of one visit, with the player of the starting state. *)
Ltac visit b bs g out :=
  cbn [foldr]; pose proof (sweep_player bs g out) as Hp;
  destruct (foldr settle (g, out) bs) as [g1 out1]; cbn [fst] in *;
  unfold settle, missed; rewrite collision_with_dog_caught, Hp;
  cbn [map List.filter]; unfold count, lost, kept in *; cbn [List.filter];
  destruct (caught (player g) (fall b)); cbn [negb andb];
  [|destruct (CANVAS_H + 50 <? Bone.y (fall b))%float; cbn [negb andb];
    [cbn [lives set_lives]; destruct (lives g1 - 1 <=? 0)%float eqn:Hover|]].

Lemma sweep_bones bs g out :
  bones (foldr settle (g, out) bs).1
  = List.filter (kept (player g)) (map fall bs) ++ bones g.
Proof.
  induction bs as [|b bs IH]; [done|].
  visit b bs g out; cbn; by rewrite ?IH.
Qed.

Lemma sweep_score bs g out :
  score (foldr settle (g, out) bs).1
  = Nat.iter (count (caught (player g)) (map fall bs)) add10 (score g).
Proof.
  induction bs as [|b bs IH]; [done|].
  visit b bs g out; cbn; by rewrite ?IH.
Qed.

Lemma sweep_lives bs g out :
  lives (foldr settle (g, out) bs).1
  = Nat.iter (count (lost (player g)) (map fall bs)) sub1 (lives g).
Proof.
  induction bs as [|b bs IH]; [done|].
  visit b bs g out; cbn; by rewrite ?IH.
Qed.

(** If a sweep changed [lives] and left it at or below zero, it cleared
    [running]: the last miss of the sweep saw that value. *)
Lemma sweep_game_over bs g out :
  let g' := (foldr settle (g, out) bs).1 in
  lives g' ≠ lives g → (lives g' <=? 0)%float = true → running g' = false.
Proof.
  induction bs as [|b bs IH]; [done|].
  visit b bs g out; cbn; try done.
  intros _ H. congruence.
Qed.

(** *** The two shapes of a frame *)

Lemma update_paused r g :
  running g = false → update r g = Some (g, [Draw g; RequestAnimationFrame]).
Proof. unfold update. by intros ->. Qed.

Lemma update_active r g :
  running g = true →
  update r g =
    let g1 := control_player (spawn_bones r g) in
    Some (render (foldr settle (set_bones [] g1, []) (bones g1))).
Proof.
  unfold update. intros ->. cbn [negb].
  by rewrite update_bones_foldr.
Qed.

(** A frame always completes: the loop never reads past the array. *)
Lemma update_total r g : ∃ g' out, update r g = Some (g', out).
Proof.
  destruct (running g) eqn:Hr.
  - rewrite update_active by done. cbv zeta.
    destruct (render _) as [g' out]. eauto.
  - rewrite update_paused by done. eauto.
Qed.

Lemma render_state wd : (render wd).1 = wd.1.
Proof. by destruct wd. Qed.

(** The spawner touches only [spawnTimer], [spawnInterval] and [bones]. *)
Lemma spawn_bones_frame r g :
  let g' := spawn_bones r g in
  score g' = score g ∧ lives g' = lives g ∧ running g' = running g
  ∧ player g' = player g ∧ keys g' = keys g ∧ mouseX g' = mouseX g
  ∧ useHandControl g' = useHandControl g
  ∧ handXNormalized g' = handXNormalized g.
Proof.
  unfold spawn_bones. cbv zeta.
  repeat match goal with |- context [if ?c then _ else _] => destruct c end;
    done.
Qed.

(** Spawner and player step work on disjoint variables. *)
Lemma spawn_control_commute r g :
  spawn_bones r (control_player g) = control_player (spawn_bones r g).
Proof.
  unfold spawn_bones. cbv zeta.
  change (spawnTimer (control_player g)) with (spawnTimer g).
  cbn [spawnInterval spawnTimer set_spawnTimer set_bones].
  change (spawnInterval (control_player g)) with (spawnInterval g).
  repeat match goal with |- context [if ?c then _ else _] => destruct c end;
    done.
Qed.

(** What an Active frame leaves behind, variable by variable. *)
Lemma update_active_outcome r g :
  running g = true →
  ∃ g' out,
    update r g = Some (g', out) ∧
    let g1 := control_player (spawn_bones r g) in
    let bs := map fall (bones (spawn_bones r g)) in
    player g' = player g1
    ∧ bones g' = List.filter (kept (player g1)) bs
    ∧ score g' = Nat.iter (count (caught (player g1)) bs) add10 (score g)
    ∧ lives g' = Nat.iter (count (lost (player g1)) bs) sub1 (lives g)
    ∧ spawnTimer g' = spawnTimer (spawn_bones r g)
    ∧ spawnInterval g' = spawnInterval (spawn_bones r g)
    ∧ keys g' = keys g ∧ mouseX g' = mouseX g
    ∧ useHandControl g' = useHandControl g
    ∧ handXNormalized g' = handXNormalized g.
Proof.
  intros Hr. rewrite update_active by done. cbv zeta.
  set (g1 := control_player (spawn_bones r g)).
  set (g2 := set_bones [] g1).
  destruct (render _) as [g' out] eqn:Hw. exists g', out. split; [done|].
  assert (g' = (foldr settle (g2, []) (bones g1)).1) as ->
    by (by rewrite <- render_state, Hw).
  destruct (sweep_frame (bones g1) g2 []) as (-> & -> & -> & -> & -> & -> & ->).
  rewrite sweep_bones, sweep_score, sweep_lives, app_nil_r.
  destruct (spawn_bones_frame r g) as (Hs & Hl & _ & _ & Hk & Hm & Hu & Hh).
  subst g1 g2. cbn [player set_bones bones control_player set_player score lives
    spawnTimer spawnInterval keys mouseX useHandControl handXNormalized] in *.
  by rewrite Hs, Hl, Hk, Hm, Hu, Hh.
Qed.

Lemma filter_kept_not_caught p bs b :
  b ∈ List.filter (kept p) bs → caught p b = false.
Proof.
  rewrite list_elem_of_In, filter_In. unfold kept.
  intros [_ H]. by destruct (caught p b).
Qed.

Lemma filter_kept_not_missed p bs b :
  b ∈ List.filter (kept p) bs → (CANVAS_H + 50 <? Bone.y b)%float = false.
Proof.
  rewrite list_elem_of_In, filter_In. unfold kept.
  intros [_ H]. destruct (_ <? _)%float; [|done].
  by rewrite andb_false_r in H.
Qed.

(** ** Catch and miss *)

(** C1 (as amended: open horizontal interval).  On a frame that starts with
    [running] set, every bone of the collection (the one spawned on this
    frame included) which after [fall] overlaps the player's vertical span
    and has its centre strictly between [player.x - 20] and
    [player.x + player.w + 20] is gone from [bones] after the frame; [score]
    has grown by one [+ 10] for each such bone; and [lives] has dropped by one
    [- 1] only for bones that were not caught, so a caught bone is never also
    counted as a miss. *)
Theorem catch_removes_and_scores r g :
  running g = true →
  ∃ g' out,
    update r g = Some (g', out) ∧
    let p := player g' in
    let bs := map fall (bones (spawn_bones r g)) in
    (∀ b, b ∈ bs →
       (Player.y p <? Bone.y b + Bone.size b)%float = true →
       (Bone.y b <? Player.y p + Player.h p)%float = true →
       (Player.x p - 20 <? Bone.x b)%float = true →
       (Bone.x b <? Player.x p + Player.w p + 20)%float = true →
       b ∉ bones g')
    ∧ score g' = Nat.iter (count (caught p) bs) add10 (score g)
    ∧ lives g' =
        Nat.iter (count (λ b, negb (caught p b) && missed b) bs) sub1 (lives g).
Proof.
  intros Hr.
  destruct (update_active_outcome r g Hr)
    as (g' & out & Hup & Hp & Hb & Hs & Hl & _).
  exists g', out. split; [done|]. cbv zeta. rewrite Hp. repeat split; [|done..].
  intros b _ H1 H2 H3 H4 Hin. rewrite Hb in Hin.
  apply filter_kept_not_caught in Hin. unfold caught in Hin.
  by rewrite H1, H2, H3, H4 in Hin.
Qed.

(** C2.  On a frame that starts with [running] set, every bone whose [y]
    after [fall] exceeds [CANVAS_H + 50] and which was not caught on this
    frame is gone from [bones] after the frame, and [lives] has dropped by
    exactly one [- 1] for each such bone. *)
Theorem miss_removes_and_costs_a_life r g :
  running g = true →
  ∃ g' out,
    update r g = Some (g', out) ∧
    let p := player g' in
    let bs := map fall (bones (spawn_bones r g)) in
    (∀ b, b ∈ bs →
       (CANVAS_H + 50 <? Bone.y b)%float = true → caught p b = false →
       b ∉ bones g')
    ∧ lives g' =
        Nat.iter
          (count (λ b, negb (caught p b) && (CANVAS_H + 50 <? Bone.y b)%float) bs)
          sub1 (lives g).
Proof.
  intros Hr.
  destruct (update_active_outcome r g Hr)
    as (g' & out & Hup & Hp & Hb & Hs & Hl & _).
  exists g', out. split; [done|]. cbv zeta. rewrite Hp. split; [|done].
  intros b _ Hy _ Hin. rewrite Hb in Hin.
  apply filter_kept_not_missed in Hin. congruence.
Qed.

(** ** Listeners and frames as steps *)

Lemma handle_total e g : ∃ g' out, handle e g = Some (g', out).
Proof.
  destruct e; cbn [handle]; eauto using update_total.
Qed.

Lemma run_total es g : ∃ g', run es g = Some g'.
Proof.
  revert g. induction es as [|e es IH]; intros g; cbn [run]; [eauto|].
  destruct (handle_total e g) as (g1 & out & ->). cbn. apply IH.
Qed.

(** A frame either leaves the state alone (paused) or is an Active frame. *)
Lemma update_cases r g g' out :
  update r g = Some (g', out) →
  (running g = false ∧ g' = g ∧ out = [Draw g; RequestAnimationFrame])
  ∨ (running g = true
     ∧ g' = (foldr settle
               (set_bones [] (control_player (spawn_bones r g)), [])
               (bones (control_player (spawn_bones r g)))).1).
Proof.
  destruct (running g) eqn:Hr.
  - rewrite update_active by done. cbv zeta. intros [= H]. right.
    split; [done|]. apply (f_equal fst) in H. by rewrite render_state in H.
  - rewrite update_paused by done. intros [= <- <-]. by left.
Qed.

Lemma update_game_over r g g' out :
  update r g = Some (g', out) →
  lives g' ≠ lives g → (lives g' <=? 0)%float = true → running g' = false.
Proof.
  intros [(_ & -> & _)|(_ & ->)]%update_cases; [done|].
  intros Hne.
  apply (sweep_game_over _ (set_bones [] (control_player (spawn_bones r g)))).
  cbn [lives set_bones control_player set_player].
  by destruct (spawn_bones_frame r g) as (_ & -> & _).
Qed.

Lemma update_running_false r g g' out :
  update r g = Some (g', out) → running g = false → running g' = false.
Proof.
  intros [(_ & -> & _)|(Hr & _)]%update_cases; congruence.
Qed.

(** Only the start button sets [running]. *)
Lemma handle_running_false e g g' out :
  e ≠ StartClick → running g = false →
  handle e g = Some (g', out) → running g' = false.
Proof.
  intros He Hr. destruct e; try done; cbn [handle];
    try (intros [= <- <-]; done).
  intros H. by eapply update_running_false.
Qed.

(** While paused, nothing but the start button touches the simulation. *)
Lemma handle_paused e g g' out :
  e ≠ StartClick → running g = false → handle e g = Some (g', out) →
  running g' = false ∧ score g' = score g ∧ lives g' = lives g
  ∧ bones g' = bones g ∧ player g' = player g
  ∧ spawnTimer g' = spawnTimer g ∧ spawnInterval g' = spawnInterval g.
Proof.
  intros He Hr. destruct e; try done; cbn [handle];
    try (intros [= <- <-]; done).
  rewrite update_paused by done. by intros [= <- <-].
Qed.

Lemma run_paused es g g' :
  StartClick ∉ es → running g = false → run es g = Some g' →
  running g' = false ∧ score g' = score g ∧ lives g' = lives g
  ∧ bones g' = bones g ∧ player g' = player g
  ∧ spawnTimer g' = spawnTimer g ∧ spawnInterval g' = spawnInterval g.
Proof.
  revert g. induction es as [|e es IH]; intros g Hes Hr; cbn [run].
  { by intros [= <-]. }
  apply not_elem_of_cons in Hes as [He Hes].
  destruct (handle e g) as [[g1 out]|] eqn:Hh; [|done]. cbn.
  destruct (handle_paused e g g1 out) as (Hr1 & <- & <- & <- & <- & <- & <-);
    [done..|]. intros H. by apply IH.
Qed.

(** ** Game over *)

(** C3.  A frame always completes, and: if [lives] was not zero before the
    frame and is zero after it, [running] is false after that same frame; a
    frame that starts with [running] false changes no variable and only
    draws and asks for the next frame; and from a state with [running] false,
    any sequence of listener runs and frames that contains no click on the
    start button ends with [running] still false and with score, lives,
    bones, player and spawn state untouched, while a click on the start
    button sets [running]. *)
Theorem game_over_is_one_way r g :
  ∃ g' out,
    update r g = Some (g', out)
    ∧ ((lives g =? 0)%float = false → (lives g' =? 0)%float = true →
       running g' = false)
    ∧ (running g = false → g' = g ∧ out = [Draw g; RequestAnimationFrame])
    ∧ (running g = false → ∀ es, StartClick ∉ es →
       ∃ g'', run es g = Some g''
         ∧ running g'' = false ∧ score g'' = score g ∧ lives g'' = lives g
         ∧ bones g'' = bones g ∧ player g'' = player g
         ∧ spawnTimer g'' = spawnTimer g ∧ spawnInterval g'' = spawnInterval g)
    ∧ (∃ out', handle StartClick g = Some (set_running true
         (set_bones [] (set_lives 3 (set_score 0 g))), out')).
Proof.
  destruct (update_total r g) as (g' & out & Hup). exists g', out.
  split; [done|]. repeat split.
  - intros H0 H1. apply (update_game_over r g g' out Hup).
    + intros E. rewrite E in H1. congruence.
    + by apply eqb_leb.
  - destruct (update_cases r g g' out Hup) as [(_ & -> & _)|(? & _)];
      [done|congruence].
  - destruct (update_cases r g g' out Hup) as [(_ & _ & ->)|(? & _)];
      [done|congruence].
  - intros Hr es Hes. destruct (run_total es g) as (g'' & Hrun).
    exists g''. split; [done|]. by eapply run_paused.
  - eexists. reflexivity.
Qed.

(** ** Reset *)

(** C4.  The start button runs [resetGame], which from any state leaves
    [score = 0], [lives = 3], no bones and [running = true], shows the new
    score and lives, and leaves [spawnTimer] and [spawnInterval] (and every
    other variable) as they were. *)
Theorem reset_restarts_session g :
  ∃ g',
    handle StartClick g = Some (g', [SetScoreText 0; SetLivesText 3])
    ∧ resetGame g = (g', [SetScoreText 0; SetLivesText 3])
    ∧ score g' = 0%float ∧ lives g' = 3%float ∧ bones g' = []
    ∧ running g' = true
    ∧ spawnTimer g' = spawnTimer g ∧ spawnInterval g' = spawnInterval g
    ∧ player g' = player g ∧ keys g' = keys g ∧ mouseX g' = mouseX g
    ∧ useHandControl g' = useHandControl g
    ∧ handXNormalized g' = handXNormalized g.
Proof.
  exists (set_running true (set_bones [] (set_lives 3 (set_score 0 g)))).
  repeat split.
Qed.

(** ** The difficulty ramp *)

Lemma ramp_checked : forallb ramp_ok (seq 0 101) = true.
Proof. vm_compute. reflexivity. Qed.

Lemma ramp_ok_upto k : k ≤ 100 → ramp_ok k = true.
Proof.
  intros Hk. pose proof ramp_checked as H.
  rewrite forallb_forall in H. apply H, in_seq. lia.
Qed.

Lemma spawn_bones_interval r g :
  spawnInterval (spawn_bones r g) = spawnInterval g
  ∨ ((30 <? spawnInterval g)%float = true
     ∧ spawnInterval (spawn_bones r g) = (spawnInterval g - 0.5)%float).
Proof.
  unfold spawn_bones. cbv zeta.
  cbn [spawnInterval spawnTimer set_spawnTimer set_bones].
  destruct (spawnInterval g <=? spawnTimer g + 1)%float; [|by left].
  destruct (30 <? spawnInterval g)%float; [by right|by left].
Qed.

Lemma handle_interval e g g' out :
  handle e g = Some (g', out) →
  spawnInterval g' = spawnInterval g
  ∨ ((30 <? spawnInterval g)%float = true
     ∧ spawnInterval g' = (spawnInterval g - 0.5)%float).
Proof.
  destruct e; cbn [handle]; try (intros [= <- <-]; by left).
  intros [(_ & -> & _)|(_ & ->)]%update_cases; [by left|].
  destruct (sweep_frame (bones (control_player (spawn_bones r g)))
    (set_bones [] (control_player (spawn_bones r g))) []) as (_ & _ & -> & _).
  apply spawn_bones_interval.
Qed.

(** Every reachable spawn interval is a point of the ramp. *)
Lemma reachable_on_ramp g :
  reachable g → ∃ k, k ≤ 100 ∧ spawnInterval g = ramp k.
Proof.
  induction 1 as [|g e g' out _ (k & Hk & IH) Hh].
  { exists 0. split; [lia|reflexivity]. }
  destruct (handle_interval e g g' out Hh) as [->|[Hgt ->]]; [eauto|].
  pose proof (ramp_ok_upto k Hk) as Hok. unfold ramp_ok in Hok.
  rewrite IH in Hgt. rewrite Hgt in Hok.
  apply andb_true_iff in Hok as [_ Hlt]. apply Nat.ltb_lt in Hlt.
  exists (S k). split; [lia|]. by rewrite IH.
Qed.

(** C5.  In every state the page can reach, [spawnInterval] is at least 30,
    and whatever listener or frame runs next leaves it no larger than it
    was and still at least 30: it either keeps its value or, only when it
    is above 30, loses 0.5. *)
Theorem spawn_interval_floor g :
  reachable g →
  (30 <=? spawnInterval g)%float = true
  ∧ ∀ e, ∃ g' out,
      handle e g = Some (g', out)
      ∧ (spawnInterval g' <=? spawnInterval g)%float = true
      ∧ (30 <=? spawnInterval g')%float = true
      ∧ (spawnInterval g' = spawnInterval g
         ∨ ((30 <? spawnInterval g)%float = true
            ∧ spawnInterval g' = (spawnInterval g - 0.5)%float)).
Proof.
  intros Hg.
  assert (∀ g, reachable g →
    (30 <=? spawnInterval g)%float = true
    ∧ (spawnInterval g <=? spawnInterval g)%float = true
    ∧ (spawnInterval g - 0.5 <=? spawnInterval g)%float = true) as Hfloor.
  { intros g0 (k & Hk & ->)%reachable_on_ramp.
    pose proof (ramp_ok_upto k Hk) as Hok. unfold ramp_ok in Hok.
    repeat (apply andb_true_iff in Hok as [Hok ?]). done. }
  split; [by apply Hfloor|]. intros e.
  destruct (handle_total e g) as (g' & out & Hh). exists g', out.
  split; [done|].
  pose proof (Hfloor g' (reachable_handle g e g' out Hg Hh)) as (H30 & _).
  destruct (Hfloor g Hg) as (_ & Hrefl & Hstep).
  destruct (handle_interval e g g' out Hh) as [E|[Hgt E]]; rewrite E in *;
    repeat split; auto.
Qed.

(** ** The player's target *)

(** For a name that [Object.prototype] does not have, the lookup is truthy
    exactly when the key is held. *)
Lemma key_down_held g k :
  inherited k = false → key_down (keys g) k = held g k.
Proof.
  intros Hk. unfold key_down, held. rewrite Hk.
  destruct (keys g !! k) as [[]|]; by case_bool_decide.
Qed.

Lemma targetX_precedence g : targetX g = targetX_by_precedence g.
Proof.
  unfold targetX, targetX_by_precedence, external_x, keyboard_target,
    left_held, right_held, key_step.
  rewrite !key_down_held by reflexivity.
  destruct (useHandControl g), (handXNormalized g), (mouseX g); try done;
    by destruct (held g "arrowleft" || held g "a"),
      (held g "arrowright" || held g "d").
Qed.

Lemma update_player r g :
  running g = true →
  ∃ g' out, update r g = Some (g', out) ∧ player g' = player (control_player g).
Proof.
  intros Hr.
  destruct (update_active_outcome r g Hr) as (g' & out & Hup & Hp & _).
  exists g', out. split; [done|]. rewrite Hp.
  rewrite <- spawn_control_commute.
  apply (spawn_bones_frame r (control_player g)).
Qed.

(** C6 (as amended: one step for each held direction, not for each held
    key).  On a frame that starts with [running] set, the target the code
    computes is the one fixed by precedence: the external normalized X times
    [CANVAS_W - player.w] when hand control is on and a value is available;
    otherwise the pointer position (less half the player's width) when there
    is one; otherwise the player's [x] moved by one step of [player.speed*2]
    to the left when [ArrowLeft] or [A] is held and by one step to the right
    when [ArrowRight] or [D] is held, two keys of one direction counting
    once.  The player's new [x] is that target, smoothed and clamped. *)
Theorem target_follows_precedence r g :
  running g = true →
  ∃ g' out,
    update r g = Some (g', out)
    ∧ targetX g = targetX_by_precedence g
    ∧ Player.x (player g') =
        clamp (CANVAS_W - Player.w (player g))
          (smooth (Player.x (player g)) (targetX_by_precedence g)).
Proof.
  intros Hr. destruct (update_player r g Hr) as (g' & out & Hup & Hp).
  exists g', out. split; [done|]. split; [apply targetX_precedence|].
  rewrite Hp, <- targetX_precedence. reflexivity.
Qed.

(** ** The order of a frame *)

(** C8 (as amended: only while [running]).  A frame with [running] set is
    the player step, the spawner, the bone loop and the drawing, in that
    order (the code runs the spawner before the player step; the two work on
    different variables, so either order gives the same frame).  A frame with
    [running] false is only the drawing. *)
Theorem frame_sequence r g :
  update r g =
    if running g then tick_in_sequence r g else Some (render (g, [])).
Proof.
  unfold update, tick_in_sequence. destruct (running g); cbn [negb]; [|done].
  by rewrite spawn_control_commute.
Qed.

(** ** The player stays in the field *)

(** An external X that is a number gives a target that is a number, however
    far outside [[0,1]] it lies, when the field is wider than the player. *)
Lemma targetX_external_number g hx :
  useHandControl g = true → handXNormalized g = Some hx →
  is_nan hx = false →
  is_finite (CANVAS_W - Player.w (player g)) = true →
  (0 <? CANVAS_W - Player.w (player g))%float = true →
  is_nan (targetX g) = false.
Proof.
  intros Hu Hh Hx Hfin Hpos. unfold targetX. rewrite Hu, Hh.
  by apply mul_not_nan.
Qed.

(** C7 (as amended: the field is at least as wide as the player, and the
    target is a number).  On a frame that starts with [running] set, if
    [0 <= CANVAS_W - player.w], the player's [x] is finite and the target
    computed from keyboard, pointer and external X is not NaN, then the
    frame completes and leaves [player.x] within
    [[0, CANVAS_W - player.w]].  The target may be any number, however far
    outside the field, or an infinity. *)
Theorem player_stays_in_field r g :
  running g = true →
  (0 <=? CANVAS_W - Player.w (player g))%float = true →
  is_finite (Player.x (player g)) = true →
  is_nan (targetX g) = false →
  ∃ g' out,
    update r g = Some (g', out)
    ∧ (0 <=? Player.x (player g'))%float = true
    ∧ (Player.x (player g') <=? CANVAS_W - Player.w (player g'))%float = true.
Proof.
  intros Hr Hw Hx Ht. destruct (update_player r g Hr) as (g' & out & Hup & Hp).
  exists g', out. split; [done|]. rewrite Hp.
  cbn [control_player player set_player Player.set_x Player.x Player.w].
  by apply clamp_within, smooth_not_nan.
Qed.

(** ** Game over in the middle of the loop *)

Lemma loop_body_ignores_running i g out :
  loop_body i (set_running false g, out)
  = (λ wd, (set_running false wd.1, wd.2)) <$> loop_body i (g, out).
Proof.
  unfold loop_body. cbn [bones set_running].
  destruct (bones g !! i) as [b|]; [|reflexivity]. cbn [mbind option_bind].
  cbn [player set_bones set_running].
  destruct (collision_with_dog (player g) (fall b)); [reflexivity|].
  destruct (missed (fall b)); [|reflexivity].
  cbn [lives set_lives set_bones set_running].
  destruct (lives g - 1 <=? 0)%float; reflexivity.
Qed.

(** C9.  The loop runs to the end of the array whatever happens to
    [running]: one visit does the same to score, lives and bones whether or
    not [running] is already false.  So on a frame that starts with
    [running] set and [lives = 1], if two bones are missed, the frame ends
    with [running] false and [lives = -1], below zero, and still every bone
    was settled: [score] has one [+ 10] for every caught bone, wherever it
    sits in the array. *)
Theorem loop_continues_after_game_over r g :
  running g = true →
  lives g = 1%float →
  let p := player (control_player g) in
  let bs := map fall (bones (spawn_bones r g)) in
  count (lost p) bs = 2 →
  ∃ g' out,
    update r g = Some (g', out)
    ∧ running g' = false
    ∧ lives g' = (-1)%float ∧ (lives g' <? 0)%float = true
    ∧ bones g' = List.filter (kept p) bs
    ∧ score g' = Nat.iter (count (caught p) bs) add10 (score g)
    ∧ ∀ i g0 out0,
        loop_body i (set_running false g0, out0)
        = (λ wd, (set_running false wd.1, wd.2)) <$> loop_body i (g0, out0).
Proof.
  intros Hr Hl p bs Hn.
  destruct (update_active_outcome r g Hr)
    as (g' & out & Hup & Hp & Hb & Hs & Hlv & _).
  cbv zeta in Hp, Hb, Hs, Hlv.
  assert (player (control_player (spawn_bones r g)) = p) as Ep.
  { rewrite <- spawn_control_commute. apply (spawn_bones_frame r (control_player g)). }
  rewrite Ep in *. fold bs in Hb, Hs, Hlv. rewrite Hn, Hl in Hlv.
  change (Nat.iter 2 sub1 1%float) with (-1)%float in Hlv.
  exists g', out. repeat split; try done.
  - apply (update_game_over r g g' out Hup).
    + rewrite Hlv, Hl. intros E.
      by apply (f_equal (λ x, (x =? 1)%float)) in E.
    + by rewrite Hlv.
  - by rewrite Hlv.
  - apply loop_body_ignores_running.
Qed.

(** ** The pointer masks the keyboard *)

Lemma handle_keeps_mouseX e g g' out :
  handle e g = Some (g', out) → is_Some (mouseX g) → is_Some (mouseX g').
Proof.
  destruct e; cbn [handle]; try (intros [= <- <-]; by eauto).
  intros [(_ & -> & _)|(_ & ->)]%update_cases; [done|].
  by destruct (sweep_frame (bones (control_player (spawn_bones r g)))
    (set_bones [] (control_player (spawn_bones r g))) [])
    as (_ & _ & _ & _ & -> & _), (spawn_bones_frame r g)
    as (_ & _ & _ & _ & _ & <- & _).
Qed.

Lemma run_keeps_mouseX es g g' :
  run es g = Some g' → is_Some (mouseX g) → is_Some (mouseX g').
Proof.
  revert g. induction es as [|e es IH]; intros g; cbn [run].
  { by intros [= <-]. }
  destruct (handle e g) as [[g1 out]|] eqn:Hh; [|done]. cbn.
  eauto using handle_keeps_mouseX.
Qed.

Lemma targetX_pointer g m :
  mouseX g = Some m → useHandControl g = false →
  targetX g = (m - Player.w (player g) / 2)%float.
Proof. unfold targetX. by intros -> ->. Qed.

(** With a pointer position and hand control off, the keys held do not
    reach the player. *)
Lemma update_player_keys r g m ks1 ks2 :
  mouseX g = Some m → useHandControl g = false →
  ∃ g1 out1 g2 out2,
    update r (set_keys ks1 g) = Some (g1, out1)
    ∧ update r (set_keys ks2 g) = Some (g2, out2)
    ∧ player g1 = player g2.
Proof.
  intros Hm Hh. destruct (running g) eqn:Hr.
  - destruct (update_player r (set_keys ks1 g) Hr) as (g1 & out1 & H1 & E1).
    destruct (update_player r (set_keys ks2 g) Hr) as (g2 & out2 & H2 & E2).
    exists g1, out1, g2, out2. repeat split; [done..|].
    rewrite E1, E2. unfold control_player.
    by rewrite !(targetX_pointer _ m).
  - exists (set_keys ks1 g), [Draw (set_keys ks1 g); RequestAnimationFrame],
      (set_keys ks2 g), [Draw (set_keys ks2 g); RequestAnimationFrame].
    by rewrite !update_paused.
Qed.

(** C10.  Once [mouseX] holds a number, no listener and no frame ever
    makes it [null] again: after any sequence of listener runs and frames it
    still holds a number.  In any such later state with hand control off,
    the target is [mouseX - player.w/2] whatever keys are down, and two
    frames that differ only in the keys held leave the same player. *)
Theorem pointer_masks_keyboard g m es :
  mouseX g = Some m →
  ∃ g' m',
    run es g = Some g' ∧ mouseX g' = Some m'
    ∧ (useHandControl g' = false →
       (∀ ks, targetX (set_keys ks g')
              = (m' - Player.w (player g') / 2)%float)
       ∧ ∀ r ks1 ks2, ∃ g1 out1 g2 out2,
           update r (set_keys ks1 g') = Some (g1, out1)
           ∧ update r (set_keys ks2 g') = Some (g2, out2)
           ∧ player g1 = player g2).
Proof.
  intros Hm. destruct (run_total es g) as (g' & Hrun).
  destruct (run_keeps_mouseX es g g' Hrun) as [m' Hm']; [by rewrite Hm|].
  exists g', m'. repeat split; [done..| |].
  - intros ks. by apply (targetX_pointer (set_keys ks g')).
  - intros r ks1 ks2. by apply (update_player_keys r g' m').
Qed.

(** * Further properties of the code *)

(** ** What a listener or frame leaves alone *)

(** Frames read the inputs and never assign them. *)
Lemma update_inputs r g g' out :
  update r g = Some (g', out) →
  keys g' = keys g ∧ mouseX g' = mouseX g
  ∧ useHandControl g' = useHandControl g
  ∧ handXNormalized g' = handXNormalized g.
Proof.
  intros [(_ & -> & _)|(_ & ->)]%update_cases; [done|].
  destruct (sweep_frame (bones (control_player (spawn_bones r g)))
    (set_bones [] (control_player (spawn_bones r g))) [])
    as (_ & _ & _ & -> & -> & -> & ->).
  destruct (spawn_bones_frame r g) as (_ & _ & _ & _ & Hk & Hm & Hu & Hh).
  by rewrite <- Hk, <- Hm, <- Hu, <- Hh.
Qed.

(** ** Lives while the session runs *)

Lemma positive_or_over l :
  is_nan l = false → (l <=? 0)%float = false → (0 <? l)%float = true.
Proof.
  intros Hl Hover. destruct (0 <? l)%float eqn:H; [done|].
  by rewrite (not_ltb_leb 0 l) in Hover.
Qed.

Lemma sweep_lives_left bs g out :
  is_nan (lives g) = false →
  (running g = true → (0 <? lives g)%float = true) →
  let g' := (foldr settle (g, out) bs).1 in
  is_nan (lives g') = false
  ∧ (running g' = true → (0 <? lives g')%float = true).
Proof.
  intros Hn Hpos. induction bs as [|b bs IH]; [done|].
  visit b bs g out; cbn [fst lives running set_score set_lives set_running
    set_bones]; destruct IH as [IHn IHp]; try done.
  - split; [|done]. by apply sub_not_nan.
  - split; [by apply sub_not_nan|]. intros _.
    apply positive_or_over; [by apply sub_not_nan|done].
Qed.

Lemma reachable_lives g :
  reachable g →
  is_nan (lives g) = false
  ∧ (running g = true → (0 <? lives g)%float = true).
Proof.
  induction 1 as [|g e g' out _ [IHn IHp] Hh]; [done|].
  destruct e; cbn [handle] in Hh; try (injection Hh as <- <-; done).
  apply update_cases in Hh as [(_ & -> & _)|(_ & ->)]; [done|].
  destruct (spawn_bones_frame r g) as (_ & Hl & Hr & _).
  apply sweep_lives_left;
    cbn [lives running set_bones control_player set_player];
    by rewrite ?Hl, ?Hr.
Qed.

(** X1.  In every state the page can reach, a session that is running has
    lives left: [running] set implies [lives > 0]. *)
Theorem running_means_lives_left g :
  reachable g → running g = true → (0 <? lives g)%float = true.
Proof. intros Hg. apply (reachable_lives g Hg). Qed.

(** ** Bones between frames *)

Lemma reachable_bones_kept g :
  reachable g → ∀ b, b ∈ bones g → kept (player g) b = true.
Proof.
  induction 1 as [|g e g' out _ IH Hh]; [by intros b ?%elem_of_nil|].
  destruct e; cbn [handle] in Hh; try (injection Hh as <- <-; done).
  { injection Hh as <- <-. by intros b ?%elem_of_nil. }
  apply update_cases in Hh as [(_ & -> & _)|(_ & ->)]; [done|].
  intros b. rewrite sweep_bones, sweep_player, app_nil_r.
  rewrite list_elem_of_In, filter_In. by intros [_ ?].
Qed.

(** X2.  In every state the page can reach, no bone of the collection is
    inside the dog's catch zone and none is below the miss line: every frame
    removes all such bones before it ends, and nothing else moves bones or
    the dog. *)
Theorem no_bone_left_to_settle g :
  reachable g →
  ∀ b, b ∈ bones g →
    caught (player g) b = false
    ∧ (CANVAS_H + 50 <? Bone.y b)%float = false.
Proof.
  intros Hg b Hb. pose proof (reachable_bones_kept g Hg b Hb) as Hk.
  unfold kept in Hk. apply andb_true_iff in Hk as [H1 H2].
  split; by apply negb_true_iff.
Qed.

(** ** The bones that survive a frame *)

Lemma filter_sublist {A} (f : A → bool) (l : list A) :
  List.filter f l `sublist_of` l.
Proof.
  induction l as [|a l IH]; [constructor|]. cbn.
  destruct (f a); by constructor.
Qed.

Lemma filter_map {A B} (f : B → bool) (h : A → B) (l : list A) :
  List.filter f (map h l) = map h (List.filter (λ a, f (h a)) l).
Proof.
  induction l as [|a l IH]; [done|]. cbn.
  destruct (f (h a)); cbn; by rewrite IH.
Qed.

(** The spawner appends at most one bone, which enters at [y = -50]. *)
Lemma spawn_bones_new r g :
  ∃ new, bones (spawn_bones r g) = bones g ++ new
    ∧ (new = [] ∨ ∃ b, new = [b] ∧ Bone.y b = (-50)%float).
Proof.
  unfold spawn_bones. cbv zeta.
  cbn [spawnInterval spawnTimer set_spawnTimer set_bones bones].
  destruct (spawnInterval g <=? spawnTimer g + 1)%float.
  - eexists [_]. split; [by destruct (30 <? spawnInterval g)%float|].
    right. eexists. split; reflexivity.
  - exists []. split; [by rewrite app_nil_r|by left].
Qed.

(** X4.  The bones after a frame that starts with [running] set are, in
    their order in the array, some of the bones before it and possibly one
    new bone at the end, which entered at [y = -50]; each has been moved by
    exactly one step ([y += vy], [vy += 0.03], [x] and [size] as they were).
    The loop skips no bone, visits none twice and reorders nothing. *)
Theorem frame_keeps_bone_order r g :
  running g = true →
  ∃ g' out new survivors,
    update r g = Some (g', out)
    ∧ (new = [] ∨ ∃ b, new = [b] ∧ Bone.y b = (-50)%float)
    ∧ survivors `sublist_of` bones g ++ new
    ∧ bones g' = map fall survivors
    ∧ length (bones g') ≤ S (length (bones g))
    ∧ ∀ b, Bone.x (fall b) = Bone.x b ∧ Bone.size (fall b) = Bone.size b
           ∧ Bone.y (fall b) = (Bone.y b + Bone.vy b)%float
           ∧ Bone.vy (fall b) = (Bone.vy b + 0.03)%float.
Proof.
  intros Hr.
  destruct (update_active_outcome r g Hr) as (g' & out & Hup & _ & Hb & _).
  destruct (spawn_bones_new r g) as (new & Hnew & Hshape).
  cbv zeta in Hb. rewrite Hnew, filter_map in Hb.
  eexists g', out, new, _. split; [done|]. split; [done|].
  split; [apply filter_sublist|]. split; [exact Hb|]. split; [|done].
  rewrite Hb, length_map.
  etrans; [apply sublist_length, filter_sublist|].
  rewrite length_app. destruct Hshape as [->|(b & -> & _)]; cbn; lia.
Qed.

(** ** The spawn timer *)

Lemma timer_checked :
  forallb (λ k, forallb (timer_ok k) (seq 0 80)) (seq 0 101) = true.
Proof. vm_compute. reflexivity. Qed.

Lemma timer_ok_upto k t : k ≤ 100 → t ≤ 79 → timer_ok k t = true.
Proof.
  intros Hk Ht. pose proof timer_checked as H.
  rewrite forallb_forall in H.
  assert (forallb (timer_ok k) (seq 0 80) = true) as Hk'
    by (apply H, in_seq; lia).
  rewrite forallb_forall in Hk'. apply Hk', in_seq. lia.
Qed.

(** Timer and interval after the spawner. *)
Lemma spawn_bones_clock r g :
  (spawnTimer (spawn_bones r g), spawnInterval (spawn_bones r g)) =
    if (spawnInterval g <=? spawnTimer g + 1)%float
    then (0%float,
          if (30 <? spawnInterval g)%float
          then (spawnInterval g - 0.5)%float else spawnInterval g)
    else ((spawnTimer g + 1)%float, spawnInterval g).
Proof.
  unfold spawn_bones. cbv zeta.
  cbn [spawnInterval spawnTimer set_spawnTimer set_bones].
  destruct (spawnInterval g <=? spawnTimer g + 1)%float; [|done].
  by destruct (30 <? spawnInterval g)%float.
Qed.

(** A listener or frame leaves the clock alone or runs the spawner on it. *)
Lemma handle_clock e g g' out :
  handle e g = Some (g', out) →
  (spawnTimer g' = spawnTimer g ∧ spawnInterval g' = spawnInterval g)
  ∨ ∃ r, spawnTimer g' = spawnTimer (spawn_bones r g)
         ∧ spawnInterval g' = spawnInterval (spawn_bones r g).
Proof.
  destruct e; cbn [handle]; try (intros [= <- <-]; by left).
  intros [(_ & -> & _)|(_ & ->)]%update_cases; [by left|].
  right. exists r.
  by destruct (sweep_frame (bones (control_player (spawn_bones r g)))
    (set_bones [] (control_player (spawn_bones r g))) [])
    as (_ & -> & -> & _).
Qed.

(** Every reachable clock is a count of at most 79 below a point of the
    ramp. *)
Lemma reachable_clock g :
  reachable g →
  ∃ k t, k ≤ 100 ∧ t ≤ 79
    ∧ spawnInterval g = ramp k ∧ spawnTimer g = ticks t
    ∧ (ticks t <? ramp k)%float = true.
Proof.
  induction 1 as [|g e g' out _ (k & t & Hk & Ht & Ei & Et & Hlt) Hh].
  { exists 0, 0. repeat split; lia. }
  destruct (handle_clock e g g' out Hh) as [[-> ->]|(r & -> & ->)];
    [by exists k, t|].
  pose proof (spawn_bones_clock r g) as Hc. rewrite Ei, Et in Hc.
  change (ticks t + 1)%float with (ticks (S t)) in Hc.
  pose proof (timer_ok_upto k t Hk Ht) as Hok. unfold timer_ok in Hok.
  rewrite Hlt in Hok. apply andb_true_iff in Hok as [_ Hok].
  pose proof (ramp_ok_upto k Hk) as Hramp. unfold ramp_ok in Hramp.
  apply andb_true_iff in Hramp as [_ Hramp].
  destruct (ramp k <=? ticks (S t))%float.
  - apply andb_true_iff in Hok as [H0 H1].
    destruct (30 <? ramp k)%float; injection Hc as -> ->.
    + apply Nat.ltb_lt in Hramp. exists (S k), 0. repeat split; [lia..|done].
    + exists k, 0. repeat split; [lia..|done].
  - apply andb_true_iff in Hok as [Hlt' Hle]. apply Nat.leb_le in Hle.
    injection Hc as -> ->. exists k, (S t). repeat split; [lia..|done].
Qed.

(** X3.  In every state the page can reach, the spawn timer is not negative
    and is strictly below the spawn interval: the frame on which the timer
    reaches the interval resets it to zero before the frame ends. *)
Theorem spawn_timer_below_interval g :
  reachable g →
  (0 <=? spawnTimer g)%float = true
  ∧ (spawnTimer g <? spawnInterval g)%float = true.
Proof.
  intros (k & t & Hk & Ht & -> & -> & Hlt)%reachable_clock.
  split; [|done].
  pose proof (timer_ok_upto k t Hk Ht) as Hok. unfold timer_ok in Hok.
  rewrite Hlt in Hok. by apply andb_true_iff in Hok as [? _].
Qed.

(** ** Inputs persist *)

(** What each listener assigns to the input variables. *)
Lemma handle_inputs e g g' out :
  handle e g = Some (g', out) →
  keys g' = match e with
            | KeyDown k => assign_key k true (keys g)
            | KeyUp k => assign_key k false (keys g)
            | _ => keys g
            end
  ∧ mouseX g' = match e with
                | MouseMove c l => Some (c - l)%float
                | _ => mouseX g
                end
  ∧ useHandControl g' = match e with
                        | HandControlStarted => true
                        | HandControlFailed | HandControlOff => false
                        | _ => useHandControl g
                        end.
Proof.
  destruct e; cbn [handle]; try (intros [= <- <-]; done).
  intros (-> & -> & -> & _)%update_inputs. done.
Qed.

(** An assignment to another key does not touch the own property of [k]. *)
Lemma lookup_assign_key_ne ks k k' b :
  k' ≠ k → assign_key k' b ks !! k = ks !! k.
Proof.
  intros Hne. unfold assign_key.
  destruct (String.eqb k' "__proto__"); [done|]. by rewrite lookup_insert_ne.
Qed.

(** An assignment to [k] itself is stored, unless [k] is [__proto__]. *)
Lemma lookup_assign_key ks k b :
  k ≠ "__proto__" → assign_key k b ks !! k = Some b.
Proof.
  intros Hk. unfold assign_key.
  destruct (String.eqb_spec k "__proto__") as [|_]; [done|].
  by rewrite lookup_insert_eq.
Qed.

Lemma run_key pressed k es g g' :
  key_event (negb pressed) k ∉ es →
  keys g !! k = Some pressed →
  run es g = Some g' → keys g' !! k = Some pressed.
Proof.
  revert g. induction es as [|e es IH]; intros g Hes Hk; cbn [run].
  { by intros [= <-]. }
  apply not_elem_of_cons in Hes as [He Hes].
  destruct (handle e g) as [[g1 out]|] eqn:Hh; [|done]. cbn.
  apply IH; [done|].
  destruct (handle_inputs e g g1 out Hh) as (-> & _).
  destruct e as [k'|k'| | | | | | |]; try done;
    (destruct (decide (k' = k)) as [Heq|Hne];
     [|by rewrite lookup_assign_key_ne]);
    destruct pressed; try (exfalso; apply He; by rewrite Heq);
    subst k';
    (destruct (String.eqb_spec k "__proto__") as [Hp|Hp];
     [rewrite Hp in Hk |- *; exact Hk|by apply lookup_assign_key]).
Qed.

(** X5.  For every key name but [__proto__] (whose assignment the object
    ignores): a key that went down stays down, through frames and every
    other listener, until its own keyup; and a key that went up stays up
    until its own keydown. *)
Theorem held_key_stays_held pressed k es g :
  k ≠ "__proto__" →
  key_event (negb pressed) k ∉ es →
  ∃ g',
    run (key_event pressed k :: es) g = Some g'
    ∧ keys g' !! k = Some pressed
    ∧ key_down (keys g') k = pressed.
Proof.
  intros Hk Hes.
  destruct (run_total (key_event pressed k :: es) g) as (g' & Hrun).
  exists g'. split; [done|].
  cbn [run] in Hrun.
  destruct (handle (key_event pressed k) g) as [[g1 out]|] eqn:Hh; [|done].
  cbn in Hrun.
  assert (keys g' !! k = Some pressed) as Hown.
  { apply (run_key pressed k es g1 g' Hes); [|done].
    destruct (handle_inputs _ g g1 out Hh) as (-> & _).
    destruct pressed; cbn; by apply lookup_assign_key. }
  split; [done|]. unfold key_down. by rewrite Hown.
Qed.

Lemma run_mouseX es g g' :
  forallb (λ e, negb (is_mouse_move e)) es = true →
  run es g = Some g' → mouseX g' = mouseX g.
Proof.
  revert g. induction es as [|e es IH]; intros g Hes; cbn [run].
  { by intros [= <-]. }
  cbn in Hes. apply andb_true_iff in Hes as [He Hes].
  destruct (handle e g) as [[g1 out]|] eqn:Hh; [|done]. cbn.
  intros ->%IH; [|done].
  destruct (handle_inputs e g g1 out Hh) as (_ & -> & _). by destruct e.
Qed.

(** X11.  After a pointer move, [mouseX] holds that position (the event's
    [clientX] less the canvas's left edge) through frames and every other
    listener, until the next pointer move. *)
Theorem pointer_keeps_last_position clientX rect_left es g :
  forallb (λ e, negb (is_mouse_move e)) es = true →
  ∃ g',
    run (MouseMove clientX rect_left :: es) g = Some g'
    ∧ mouseX g' = Some (clientX - rect_left)%float.
Proof.
  intros Hes.
  destruct (run_total (MouseMove clientX rect_left :: es) g) as (g' & Hrun).
  exists g'. split; [done|]. cbn in Hrun.
  by rewrite (run_mouseX es _ g' Hes Hrun).
Qed.

Lemma run_hand_off es g g' :
  HandControlStarted ∉ es → useHandControl g = false →
  run es g = Some g' → useHandControl g' = false.
Proof.
  revert g. induction es as [|e es IH]; intros g Hes Hoff; cbn [run].
  { by intros [= <-]. }
  apply not_elem_of_cons in Hes as [He Hes].
  destruct (handle e g) as [[g1 out]|] eqn:Hh; [|done]. cbn.
  apply IH; [done|].
  destruct (handle_inputs e g g1 out Hh) as (_ & _ & ->). by destruct e.
Qed.

(** X6.  Once hand control has been switched off, or its setup has failed,
    it stays off until a setup succeeds: whatever the tracker still reports
    afterwards, the value of [handXNormalized] has no influence on the
    player's target. *)
Theorem late_hand_results_are_ignored e0 es g :
  e0 = HandControlOff ∨ e0 = HandControlFailed →
  HandControlStarted ∉ es →
  ∃ g',
    run (e0 :: es) g = Some g'
    ∧ useHandControl g' = false
    ∧ ∀ hx, targetX (set_handXNormalized hx g') = targetX g'.
Proof.
  intros He0 Hes. destruct (run_total (e0 :: es) g) as (g' & Hrun).
  exists g'. split; [done|].
  assert (useHandControl g' = false) as Hoff.
  { destruct He0 as [-> | ->]; cbn in Hrun;
      by eapply (run_hand_off es); [done| |exact Hrun]. }
  split; [done|]. intros hx. unfold targetX.
  cbn [player keys mouseX useHandControl set_handXNormalized].
  by rewrite Hoff.
Qed.

(** ** What a frame writes and schedules *)

Lemma last_score_text_app a b :
  last_score_text (a ++ b) =
    match last_score_text b with
    | Some s => Some s
    | None => last_score_text a
    end.
Proof.
  induction a as [|e a IH]; cbn; [by destruct (last_score_text b)|].
  rewrite IH. by destruct (last_score_text b), (last_score_text a), e.
Qed.

Lemma last_lives_text_app a b :
  last_lives_text (a ++ b) =
    match last_lives_text b with
    | Some l => Some l
    | None => last_lives_text a
    end.
Proof.
  induction a as [|e a IH]; cbn; [by destruct (last_lives_text b)|].
  rewrite IH. by destruct (last_lives_text b), (last_lives_text a), e.
Qed.

Lemma has_alert_elem out :
  has_alert out = true ↔ GameOverAlertIn50ms ∈ out.
Proof.
  unfold has_alert. rewrite existsb_exists, list_elem_of_In. split.
  - intros (e & Hin & He). by destruct e.
  - intros Hin. by exists GameOverAlertIn50ms.
Qed.

Lemma log_ok_nil g : log_ok g [] g.
Proof. repeat split; [constructor|by rewrite andb_true_r]. Qed.

Lemma log_ok_app g ext1 g1 ext2 g2 :
  log_ok g ext1 g1 → log_ok g1 ext2 g2 → log_ok g (ext1 ++ ext2) g2.
Proof.
  intros (F1 & S1 & L1 & R1) (F2 & S2 & L2 & R2). repeat split.
  - by apply Forall_app.
  - rewrite last_score_text_app.
    destruct (last_score_text ext2), (last_score_text ext1); congruence.
  - rewrite last_lives_text_app.
    destruct (last_lives_text ext2), (last_lives_text ext1); congruence.
  - unfold has_alert in *. rewrite existsb_app, R2, R1.
    by destruct (running g), (existsb is_alert ext1), (existsb is_alert ext2).
Qed.

Lemma settle_log b g out :
  ∃ ext, (settle b (g, out)).2 = out ++ ext
    ∧ log_ok g ext (settle b (g, out)).1.
Proof.
  unfold settle.
  destruct (collision_with_dog (player g) (fall b)).
  { eexists [_]. split; [reflexivity|].
    repeat split; [by repeat constructor|by rewrite andb_true_r]. }
  destruct (missed (fall b)).
  2:{ exists []. split; [by rewrite app_nil_r|].
      repeat split; [constructor|by rewrite andb_true_r]. }
  cbn [lives set_lives].
  destruct (lives g - 1 <=? 0)%float.
  - eexists [_; _]. split; [by rewrite <- app_assoc|].
    repeat split; [by repeat constructor|by rewrite andb_false_r].
  - eexists [_]. split; [reflexivity|].
    repeat split; [by repeat constructor|by rewrite andb_true_r].
Qed.

Lemma sweep_log bs g out :
  ∃ ext, (foldr settle (g, out) bs).2 = out ++ ext
    ∧ log_ok g ext (foldr settle (g, out) bs).1.
Proof.
  induction bs as [|b bs (ext1 & E1 & H1)].
  { exists []. split; [by rewrite app_nil_r|apply log_ok_nil]. }
  cbn [foldr]. destruct (foldr settle (g, out) bs) as [g1 out1].
  cbn [fst snd] in *. destruct (settle_log b g1 out1) as (ext2 & E2 & H2).
  exists (ext1 ++ ext2). split; [by rewrite E2, E1, app_assoc|].
  by eapply log_ok_app.
Qed.

(** The log of a frame: what the loop wrote, then the drawing of the final
    state, then the request for the next frame. *)
Lemma update_log r g :
  ∃ g' ext,
    update r g = Some (g', ext ++ [Draw g'; RequestAnimationFrame])
    ∧ log_ok g ext g'.
Proof.
  destruct (running g) eqn:Hr.
  - rewrite update_active by done. cbv zeta.
    set (g2 := set_bones [] (control_player (spawn_bones r g))).
    destruct (sweep_log (bones (control_player (spawn_bones r g))) g2 [])
      as (ext & E & (F & S & L & R)).
    destruct (foldr settle _ _) as [g' out]. cbn [fst snd] in *.
    rewrite app_nil_l in E. subst out. exists g', ext. split; [done|].
    destruct (spawn_bones_frame r g) as (Hs & Hl & Hrun & _).
    subst g2. cbn [score lives running set_bones control_player set_player] in *.
    rewrite Hs in S. rewrite Hl in L. rewrite Hrun in R. done.
  - rewrite update_paused by done. exists g, []. split; [done|].
    apply log_ok_nil.
Qed.

(** X7.  Every call of [update], running or paused, ends by drawing the
    state it leaves behind and then requesting exactly one next frame; before
    that it only writes score and lives texts and schedules alerts. *)
Theorem frame_draws_then_requests_next r g :
  ∃ g' ext,
    update r g = Some (g', ext ++ [Draw g'; RequestAnimationFrame])
    ∧ Forall (λ e, hud_effect e = true) ext.
Proof.
  destruct (update_log r g) as (g' & ext & Hup & F & _). by exists g', ext.
Qed.

Lemma handle_hud e g :
  ∃ g' out,
    handle e g = Some (g', out)
    ∧ match last_score_text out with
      | Some s => s = score g'
      | None => score g' = score g
      end
    ∧ match last_lives_text out with
      | Some l => l = lives g'
      | None => lives g' = lives g
      end.
Proof.
  destruct e; try (eexists _, _; split; [reflexivity|]; done).
  cbn [handle]. destruct (update_log r g) as (g' & ext & Hup & _ & S & L & _).
  exists g', (ext ++ [Draw g'; RequestAnimationFrame]). split; [exact Hup|].
  rewrite last_score_text_app, last_lives_text_app. done.
Qed.

(** X8.  Over any sequence of listener runs and frames: if anything was
    written to the score element, the last text written is the score the
    sequence leaves, and if nothing was written the score has not changed;
    the same for the lives element.  If the sequence contains a click on the
    start button, both elements have been written, so they show the current
    score and lives. *)
Theorem hud_follows_score_and_lives es g :
  ∃ g' out,
    run_log es g = Some (g', out)
    ∧ match last_score_text out with
      | Some s => s = score g'
      | None => score g' = score g
      end
    ∧ match last_lives_text out with
      | Some l => l = lives g'
      | None => lives g' = lives g
      end
    ∧ (StartClick ∈ es →
       last_score_text out = Some (score g')
       ∧ last_lives_text out = Some (lives g')).
Proof.
  revert g. induction es as [|e es IH]; intros g.
  { exists g, []. do 3 (split; [done|]). by intros ?%elem_of_nil. }
  destruct (handle_hud e g) as (g1 & o1 & Hh & S1 & L1).
  destruct (IH g1) as (g2 & o2 & Hrun & S2 & L2 & Hstart).
  exists g2, (o1 ++ o2). cbn [run_log]. rewrite Hh. cbn. rewrite Hrun. cbn.
  split; [done|]. rewrite last_score_text_app, last_lives_text_app.
  split; [|split].
  - destruct (last_score_text o2), (last_score_text o1); congruence.
  - destruct (last_lives_text o2), (last_lives_text o1); congruence.
  - intros [<-|Hin]%elem_of_cons.
    + cbn [handle resetGame] in Hh. injection Hh as <- <-.
      cbn in S2, L2 |- *.
      destruct (last_score_text o2), (last_lives_text o2);
        split; congruence.
    + destruct (Hstart Hin) as [-> ->]. done.
Qed.

(** X9.  A frame schedules the game-over alert exactly when it ends the
    session: the alert is in the frame's log if and only if [running] was
    set before the frame and is cleared after it. *)
Theorem game_over_is_announced r g :
  ∃ g' out,
    update r g = Some (g', out)
    ∧ (GameOverAlertIn50ms ∈ out ↔ running g = true ∧ running g' = false).
Proof.
  destruct (update_log r g) as (g' & ext & Hup & _ & _ & _ & R).
  exists g', (ext ++ [Draw g'; RequestAnimationFrame]). split; [exact Hup|].
  assert (running g = false → existsb is_alert ext = false) as Hpaused.
  { intros Hr.
    destruct (update_cases r g g' _ Hup) as [(_ & _ & E)|(? & _)];
      [|congruence].
    apply (f_equal has_alert) in E. unfold has_alert in E.
    rewrite existsb_app in E. cbn in E. by rewrite !orb_false_r in E. }
  rewrite <- has_alert_elem. unfold has_alert in *.
  rewrite existsb_app. cbn. rewrite !orb_false_r. rewrite R.
  destruct (running g), (existsb is_alert ext); cbn; intuition congruence.
Qed.

(** ** The player at rest *)

Lemma ltb_asym a b : (a <? b)%float = true → (b <? a)%float = false.
Proof.
  rewrite !FloatAxioms.ltb_spec. unfold SFltb.
  rewrite (SFcompare_antisym (Prim2SF a) (Prim2SF b)).
  by destruct (SFcompare (Prim2SF a) (Prim2SF b)) as [[]|].
Qed.

(** A number strictly between zero and another number is positive and
    finite. *)
Lemma between_positive_finite x hi :
  (0 <? x)%float = true → (x <? hi)%float = true →
  ∃ m e, Prim2SF x = S754_finite false m e.
Proof.
  rewrite !FloatAxioms.ltb_spec. unfold SFltb.
  replace (Prim2SF 0) with (S754_zero false) by reflexivity.
  destruct (Prim2SF x) as [[]|[]| |[] m e]; try done; [|by eauto].
  by destruct (Prim2SF hi) as [[]|[]| |[] m e].
Qed.

(** Smoothing towards the place where the player already is leaves it
    there. *)
Lemma smooth_fixed x m e :
  Prim2SF x = S754_finite false m e → smooth x x = x.
Proof.
  intros Hx. unfold smooth.
  assert ((x - x)%float = 0%float) as ->.
  { apply Prim2SF_inj. rewrite sub_spec, Hx.
    unfold SF64sub, SFsub, shl_align. rewrite Z.min_id, Z.sub_diag.
    reflexivity. }
  change (0 * 0.25)%float with 0%float.
  apply Prim2SF_inj. rewrite add_spec, Hx. reflexivity.
Qed.

(** The clamp leaves a number strictly inside the field where it is. *)
Lemma clamp_inside hi x :
  (0 <? x)%float = true → (x <? hi)%float = true → clamp hi x = x.
Proof.
  intros H0 Hhi.
  destruct (leb_not_nan _ _ (ltb_leb _ _ Hhi)) as [Nx Nhi].
  unfold clamp, Math.min, Math.max.
  rewrite Nhi, Nx, (ltb_asym _ _ Hhi), Hhi. cbn [orb].
  change (is_nan 0) with false. by rewrite Nx, H0.
Qed.

(** With no direction key down, no pointer position and hand control off,
    the target is where the player is. *)
Lemma idle_target g :
  key_down (keys g) "arrowleft" = false → key_down (keys g) "a" = false →
  key_down (keys g) "arrowright" = false → key_down (keys g) "d" = false →
  mouseX g = None → useHandControl g = false →
  targetX g = Player.x (player g).
Proof. unfold targetX. by intros -> -> -> -> -> ->. Qed.

(** X10.  A player that is already at its target, strictly inside the
    field, is not moved by a frame: smoothing and clamp leave [player.x]
    exactly as it was.  By [idle_target] this is the case when no direction
    key is down, there is no pointer position and hand control is off: the
    dog does not drift. *)
Theorem player_rests_on_target r g :
  running g = true →
  targetX g = Player.x (player g) →
  (0 <? Player.x (player g))%float = true →
  (Player.x (player g) <? CANVAS_W - Player.w (player g))%float = true →
  ∃ g' out, update r g = Some (g', out) ∧ player g' = player g.
Proof.
  intros Hr Ht H0 Hhi.
  destruct (update_player r g Hr) as (g' & out & Hup & Hp).
  exists g', out. split; [done|]. rewrite Hp.
  destruct (between_positive_finite _ _ H0 Hhi) as (m & e & Hx).
  unfold control_player. rewrite Ht.
  cbn [player set_player Player.set_x Player.x Player.w Player.y Player.h
       Player.speed].
  rewrite (smooth_fixed _ m e Hx), (clamp_inside _ _ H0 Hhi).
  by destruct (player g).
Qed.

(** ** Starting a session *)

(** X12.  From any state, a click on the start button followed by a frame
    leaves a running session: that frame settles at most the one bone it may
    have spawned, so it can cost at most one life, and the session has three
    or two lives and at most one bone after it. *)
Theorem start_then_frame_is_running r g :
  ∃ g',
    run [StartClick; AnimationFrame r] g = Some g'
    ∧ running g' = true
    ∧ (lives g' = 3%float ∨ lives g' = 2%float)
    ∧ length (bones g') ≤ 1.
Proof.
  cbn [run handle resetGame mbind option_bind fst].
  set (g0 := set_running true (set_bones [] (set_lives 3 (set_score 0 g)))).
  assert (running g0 = true) as Hr by reflexivity.
  rewrite (update_active r g0 Hr). cbv zeta. cbn [mbind option_bind].
  rewrite render_state.
  destruct (spawn_bones_new r g0) as (new & Hnew & Hshape).
  change (bones (control_player (spawn_bones r g0)))
    with (bones (spawn_bones r g0)).
  rewrite Hnew. change (bones g0) with (@nil Bone.t). cbn [app].
  eexists. split; [reflexivity|].
  destruct (spawn_bones_frame r g0) as (_ & Hl & Hrun & _).
  destruct Hshape as [->|(b & -> & _)].
  { cbn. rewrite Hl, Hrun. auto. }
  cbn [foldr]. unfold settle.
  destruct (collision_with_dog _ (fall b)).
  { cbn. rewrite Hl, Hrun. auto. }
  destruct (missed (fall b)).
  2:{ cbn. rewrite Hl, Hrun. auto. }
  cbn [lives set_lives set_bones control_player set_player].
  rewrite Hl. change (lives g0) with 3%float.
  change (3 - 1 <=? 0)%float with false. cbn. rewrite Hrun. auto.
Qed.

(** ** A frame on which nothing is caught or lost *)

Lemma sweep_quiet bs g out :
  (∀ b, b ∈ bs → kept (player g) (fall b) = true) →
  foldr settle (g, out) bs = (set_bones (map fall bs ++ bones g) g, out).
Proof.
  induction bs as [|b bs IH]; intros Hk; [cbn; by rewrite set_bones_same|].
  cbn [foldr]. rewrite IH by (intros; apply Hk; by right).
  pose proof (Hk b (list_elem_of_here _ _)) as Hb. unfold kept in Hb.
  apply andb_true_iff in Hb as [Hc Hm]. apply negb_true_iff in Hc, Hm.
  unfold settle, missed. cbn [player set_bones bones].
  by rewrite collision_with_dog_caught, Hc, Hm.
Qed.

(** X13.  A frame that starts with [running] set and on which no bone,
    after its step, is in the catch zone or below the miss line removes no
    bone and writes nothing: every bone is moved one step and stays, score,
    lives and [running] are as before, and the frame only draws and requests
    the next frame. *)
Theorem quiet_frame r g :
  running g = true →
  (∀ b, b ∈ bones (spawn_bones r g) →
     caught (player (control_player g)) (fall b) = false
     ∧ (CANVAS_H + 50 <? Bone.y (fall b))%float = false) →
  ∃ g',
    update r g = Some (g', [Draw g'; RequestAnimationFrame])
    ∧ bones g' = map fall (bones (spawn_bones r g))
    ∧ score g' = score g ∧ lives g' = lives g ∧ running g' = true.
Proof.
  intros Hr Hq. rewrite update_active by done. cbv zeta.
  assert (player (control_player (spawn_bones r g)) = player (control_player g))
    as Ep.
  { rewrite <- spawn_control_commute.
    apply (spawn_bones_frame r (control_player g)). }
  rewrite sweep_quiet.
  2:{ intros b Hb. cbn [player set_bones]. rewrite Ep. unfold kept.
      destruct (Hq b Hb) as [-> ->]. done. }
  eexists. split; [reflexivity|].
  destruct (spawn_bones_frame r g) as (Hs & Hl & Hrun & _).
  cbn. rewrite app_nil_r, Hs, Hl, Hrun. done.
Qed.

(** ** The dog only moves sideways *)

Lemma update_player_shape r g g' out :
  update r g = Some (g', out) →
  Player.y (player g') = Player.y (player g)
  ∧ Player.w (player g') = Player.w (player g)
  ∧ Player.h (player g') = Player.h (player g)
  ∧ Player.speed (player g') = Player.speed (player g).
Proof.
  intros [(_ & -> & _)|(_ & ->)]%update_cases; [done|].
  rewrite sweep_player. cbn [player set_bones control_player set_player].
  by destruct (spawn_bones_frame r g) as (_ & _ & _ & -> & _).
Qed.

Lemma handle_player_shape e g g' out :
  handle e g = Some (g', out) →
  Player.y (player g') = Player.y (player g)
  ∧ Player.w (player g') = Player.w (player g)
  ∧ Player.h (player g') = Player.h (player g)
  ∧ Player.speed (player g') = Player.speed (player g).
Proof.
  destruct e; cbn [handle]; try (intros [= <- <-]; done).
  apply update_player_shape.
Qed.

(** X14.  In every state the page can reach, the dog has the row, size and
    speed the page gave it: [player.y = CANVAS_H - 80], [player.w = 120],
    [player.h = 80], [player.speed = 8].  Nothing but the frame's player
    step writes to [player], and it writes [x] only. *)
Theorem dog_only_moves_sideways g :
  reachable g →
  Player.y (player g) = (CANVAS_H - 80)%float
  ∧ Player.w (player g) = 120%float
  ∧ Player.h (player g) = 80%float
  ∧ Player.speed (player g) = 8%float.
Proof.
  induction 1 as [|g e g' out _ IH Hh]; [done|].
  destruct (handle_player_shape e g g' out Hh) as (-> & -> & -> & ->).
  exact IH.
Qed.

(** ** The dog stays in the field, from the loaded page on *)

Lemma finite_not_nan a : is_finite a = true → is_nan a = false.
Proof.
  rewrite is_finite_spec, is_nan_spec. by destruct (Prim2SF a).
Qed.

Lemma SFadd_not_nan_r prec emax x y :
  sf_is_nan x = false → sf_is_finite y = true →
  sf_is_nan (SFadd prec emax x y) = false.
Proof.
  destruct x as [[]|[]| |[] mx ex], y as [[]|[]| |[] my ey]; try done;
    intros _ _; apply binary_normalize_not_nan.
Qed.

Lemma add_not_nan_r a b :
  is_nan a = false → is_finite b = true → is_nan (a + b) = false.
Proof.
  rewrite !is_nan_spec, is_finite_spec, add_spec. apply SFadd_not_nan_r.
Qed.

(** A number between zero and a finite number is finite. *)
Lemma within_finite hi x :
  (0 <=? x)%float = true → (x <=? hi)%float = true →
  is_finite hi = true → is_finite x = true.
Proof.
  rewrite !FloatAxioms.leb_spec, !is_finite_spec. unfold SFleb.
  replace (Prim2SF 0) with (S754_zero false) by reflexivity.
  by destruct (Prim2SF x) as [[]|[]| |[] m e],
    (Prim2SF hi) as [[]|[]| |[] m' e'].
Qed.

Lemma numeric_target g :
  is_finite (CANVAS_W - 120) = true → (0 <? CANVAS_W - 120)%float = true →
  numeric g → is_nan (targetX g) = false.
Proof.
  intros Hfin Hpos (Hw & Hs & Hx & Hm & Hh). unfold targetX.
  rewrite Hw, Hs.
  destruct (useHandControl g), (handXNormalized g) as [hx|] eqn:Eh;
    try (apply mul_not_nan; by auto);
    (destruct (mouseX g) as [m|] eqn:Em; [apply sub_not_nan; by auto|]);
    destruct (_ || _), (_ || _);
    repeat first [apply add_not_nan_r | apply sub_not_nan];
    by auto using finite_not_nan.
Qed.

Lemma numeric_update r g g' out :
  is_finite (CANVAS_W - 120) = true → (0 <? CANVAS_W - 120)%float = true →
  numeric g → update r g = Some (g', out) →
  numeric g'
  ∧ (running g = true →
     (0 <=? Player.x (player g'))%float = true
     ∧ (Player.x (player g') <=? CANVAS_W - 120)%float = true).
Proof.
  intros Hfin Hpos Hg Hup.
  destruct (update_inputs r g g' out Hup) as (_ & Em & _ & Eh).
  destruct (update_player_shape r g g' out Hup) as (_ & Ew & _ & Es).
  pose proof (numeric_target g Hfin Hpos Hg) as Ht.
  destruct Hg as (Hw & Hs & Hx & Hm & Hh).
  destruct (running g) eqn:Hr.
  - destruct (update_player r g Hr) as (g1 & out1 & Hup1 & Hp).
    rewrite Hup in Hup1. injection Hup1 as <- <-.
    assert ((0 <=? Player.x (player g'))%float = true
            ∧ (Player.x (player g') <=? CANVAS_W - 120)%float = true)
      as [H0 Hhi].
    { rewrite Hp. unfold control_player.
      cbn [player set_player Player.set_x Player.x Player.w]. rewrite Hw.
      apply clamp_within; [by apply ltb_leb|by apply smooth_not_nan]. }
    split; [|done]. unfold numeric.
    rewrite Ew, Es, Em, Eh. repeat split; try done.
    by apply (within_finite (CANVAS_W - 120)).
  - rewrite update_paused in Hup by done. injection Hup as <- <-.
    split; [done|congruence].
Qed.

Lemma numeric_handle e g g' out :
  is_finite (CANVAS_W - 120) = true → (0 <? CANVAS_W - 120)%float = true →
  numeric_event e = true → numeric g → handle e g = Some (g', out) →
  numeric g'.
Proof.
  intros Hfin Hpos He Hg.
  destruct e; cbn [handle];
    try (intros [= <- <-]; destruct Hg as (? & ? & ? & Hm & Hh);
         repeat split; try done).
  - cbn. intros m [= <-]. cbn in He. by apply negb_true_iff in He.
  - intros Hup. by apply (numeric_update r g g' out).
  - cbn. intros hx ->. cbn in He. by apply negb_true_iff in He.
Qed.

Lemma numeric_run es g g' :
  is_finite (CANVAS_W - 120) = true → (0 <? CANVAS_W - 120)%float = true →
  forallb numeric_event es = true → numeric g → run es g = Some g' →
  numeric g'.
Proof.
  intros Hfin Hpos. revert g.
  induction es as [|e es IH]; intros g Hes Hg; cbn [run].
  { by intros [= <-]. }
  cbn in Hes. apply andb_true_iff in Hes as [He Hes].
  destruct (handle e g) as [[g1 out]|] eqn:Hh; [|done]. cbn.
  apply IH; [done|]. by eapply numeric_handle.
Qed.

(** X15.  On a canvas wider than the dog (of finite width), from the loaded
    page on: as long as every pointer position and every tracker reading so
    far is a number, whatever else has happened, a frame that starts with
    [running] set completes and leaves [player.x] within
    [[0, CANVAS_W - 120]]. *)
Theorem dog_stays_in_field_from_page_load es r :
  is_finite (CANVAS_W / 2) = true →
  is_finite (CANVAS_W - 120) = true →
  (0 <? CANVAS_W - 120)%float = true →
  forallb numeric_event es = true →
  ∃ g,
    run es initial = Some g
    ∧ (running g = true →
       ∃ g' out,
         update r g = Some (g', out)
         ∧ (0 <=? Player.x (player g'))%float = true
         ∧ (Player.x (player g') <=? CANVAS_W - 120)%float = true).
Proof.
  intros Hhalf Hfin Hpos Hes.
  destruct (run_total es initial) as (g & Hrun). exists g. split; [done|].
  assert (numeric g) as Hg.
  { apply (numeric_run es initial g Hfin Hpos Hes); [|done].
    by repeat split. }
  intros Hr. destruct (update_total r g) as (g' & out & Hup).
  exists g', out. split; [done|].
  by apply (numeric_update r g g' out Hfin Hpos Hg Hup).
Qed.

End Canvas.

(** * The theorems at work on an 800 by 600 canvas *)

(** After a frame has been evaluated, name its result. *)
Ltac frame_result H := vm_compute in H; injection H as <- <-.

(** C1, witness: a bone above the dog is caught on the next frame. *)
Lemma catch_removes_and_scores_witness :
  running (in_play 3 [bone_over_dog]) = true
  ∧ ∃ g' out,
      update 800 600 demo_rand (in_play 3 [bone_over_dog]) = Some (g', out)
      ∧ (fall bone_over_dog ∉ bones g')
      ∧ score g' = 10%float ∧ lives g' = 3%float.
Proof.
  split; [reflexivity|].
  destruct (catch_removes_and_scores 800 600 demo_rand
              (in_play 3 [bone_over_dog]) eq_refl)
    as (g' & out & Hup & Hgone & Hscore & Hlives).
  exists g', out. split; [exact Hup|].
  cbv zeta in Hgone, Hscore, Hlives. rewrite Hscore, Hlives.
  frame_result Hup. split; [|split; reflexivity].
  apply Hgone; [vm_compute; left|reflexivity..].
Defined.

(** C1, counterexample to the closed interval.  A bone whose centre is at
    exactly [player.x - 20], inside the player's vertical span, is still in
    the collection after the frame and the score has not moved.  Such a bone
    turns up in play: from the loaded page, a click on the start button and
    192 frames on which [Math.random()] returns the values of [edge_rand]
    lead to a state whose next frame finds a bone exactly there, and leaves
    it. *)
Lemma catch_closed_interval_counterexample :
  (∃ g' out,
     update 800 600 demo_rand (in_play 3 [bone_on_edge]) = Some (g', out)
     ∧ running (in_play 3 [bone_on_edge]) = true
     ∧ caught_closed (player g') (fall bone_on_edge) = true
     ∧ fall bone_on_edge ∈ bones g'
     ∧ score g' = score (in_play 3 [bone_on_edge]))
  ∧ (∃ g b g' out,
       run 800 600 (StartClick :: replicate 192 (AnimationFrame edge_rand))
         (initial 800 600) = Some g
       ∧ running g = true
       ∧ b ∈ map fall (bones (spawn_bones 800 edge_rand g))
       ∧ update 800 600 edge_rand g = Some (g', out)
       ∧ caught_closed (player g') b = true
       ∧ b ∈ bones g'
       ∧ score g' = score g).
Proof.
  split.
  - eexists _, _. split; [vm_compute; reflexivity|].
    repeat split; try reflexivity. vm_compute. left.
  - eexists _, _, _, _. split; [vm_compute; reflexivity|].
    split; [reflexivity|]. split; [lazy; left|].
    split; [vm_compute; reflexivity|].
    repeat split; try reflexivity. vm_compute. left.
Qed.

(** C2, witness: a bone below the miss line costs a life. *)
Lemma miss_removes_and_costs_a_life_witness :
  running (in_play 3 [bone_below_a]) = true
  ∧ ∃ g' out,
      update 800 600 demo_rand (in_play 3 [bone_below_a]) = Some (g', out)
      ∧ (fall bone_below_a ∉ bones g') ∧ lives g' = 2%float.
Proof.
  split; [reflexivity|].
  destruct (miss_removes_and_costs_a_life 800 600 demo_rand
              (in_play 3 [bone_below_a]) eq_refl)
    as (g' & out & Hup & Hgone & Hlives).
  exists g', out. split; [exact Hup|].
  cbv zeta in Hgone, Hlives. rewrite Hlives.
  frame_result Hup. split; [|reflexivity].
  apply Hgone; [vm_compute; left|reflexivity..].
Defined.

(** C3, witness: the last life goes, and the session stops on that frame. *)
Lemma game_over_is_one_way_witness :
  ∃ g' out,
    update 800 600 demo_rand (in_play 1 [bone_below_a]) = Some (g', out)
    ∧ (lives (in_play 1 [bone_below_a]) =? 0)%float = false
    ∧ (lives g' =? 0)%float = true
    ∧ running g' = false.
Proof.
  destruct (game_over_is_one_way 800 600 demo_rand (in_play 1 [bone_below_a]))
    as (g' & out & Hup & Hover & _).
  exists g', out. split; [exact Hup|]. split; [reflexivity|].
  assert ((lives g' =? 0)%float = true) as Hzero
    by (frame_result Hup; reflexivity).
  split; [exact Hzero|]. apply Hover; [reflexivity|exact Hzero].
Defined.

(** A run of listeners and frames from a reachable state ends in one. *)
Lemma run_reachable W H es g g' :
  reachable W H g → run W H es g = Some g' → reachable W H g'.
Proof.
  revert g. induction es as [|e es IH]; intros g Hg; cbn [run].
  { by intros [= <-]. }
  destruct (handle W H e g) as [[g1 out]|] eqn:Hh; [|done]. cbn.
  apply IH. by eapply reachable_handle.
Qed.

(** C5, witness: after a click on the start button and eighty frames the
    first bone has been spawned, and the interval has come down once, to
    79.5. *)
Lemma spawn_interval_floor_witness :
  ∃ g,
    run 800 600 (StartClick :: replicate 80 (AnimationFrame demo_rand))
      (initial 800 600) = Some g
    ∧ reachable 800 600 g
    ∧ spawnInterval g = 79.5%float
    ∧ (30 <=? spawnInterval g)%float = true.
Proof.
  destruct (run_total 800 600
              (StartClick :: replicate 80 (AnimationFrame demo_rand))
              (initial 800 600)) as (g & Hrun).
  assert (reachable 800 600 g) as Hg
    by (eapply run_reachable; [apply reachable_initial|exact Hrun]).
  exists g. split; [exact Hrun|]. split; [exact Hg|].
  split; [|exact (proj1 (spawn_interval_floor 800 600 g Hg))].
  vm_compute in Hrun. by injection Hrun as <-.
Defined.

(** C6, witness: with the right arrow held and no pointer the target is one
    step to the right of the player, and the player moves a quarter of the
    way; with the pointer at 300 as well, the target is the pointer's. *)
Lemma target_follows_precedence_witness :
  let g := set_keys {[ "arrowright" := true ]} (in_play 3 []) in
  let g2 := set_mouseX (Some 300%float) g in
  (running g = true
   ∧ ∃ g' out,
       update 800 600 demo_rand g = Some (g', out)
       ∧ targetX 800 g = 416%float
       ∧ Player.x (player g') = 404%float)
  ∧ (running g2 = true
     ∧ ∃ g' out,
         update 800 600 demo_rand g2 = Some (g', out)
         ∧ targetX 800 g2 = 240%float
         ∧ Player.x (player g') = 360%float).
Proof.
  split; (split; [reflexivity|]).
  - destruct (target_follows_precedence 800 600 demo_rand
                (set_keys {[ "arrowright" := true ]} (in_play 3 [])) eq_refl)
      as (g' & out & Hup & Ht & Hx).
    exists g', out. split; [exact Hup|]. rewrite Ht, Hx.
    split; vm_compute; reflexivity.
  - destruct (target_follows_precedence 800 600 demo_rand
                (set_mouseX (Some 300%float)
                   (set_keys {[ "arrowright" := true ]} (in_play 3 [])))
                eq_refl)
      as (g' & out & Hup & Ht & Hx).
    exists g', out. split; [exact Hup|]. rewrite Ht, Hx.
    split; vm_compute; reflexivity.
Defined.

(** C6, counterexample to one step for each held key.  The page is loaded,
    the start button clicked, and [ArrowLeft] and [A] both go down: with no
    pointer and no hand control, the two keys move the target one step
    (from 400 to 384), not two (368), and the next frame leaves the player
    at 396, not 392. *)
Lemma target_per_key_counterexample :
  ∃ g g' out,
    run 800 600 [StartClick; KeyDown "arrowleft"; KeyDown "a"]
      (initial 800 600) = Some g
    ∧ running g = true
    ∧ held g "arrowleft" = true ∧ held g "a" = true
    ∧ mouseX g = None ∧ external_x g = None
    ∧ targetX_per_key 800 g = 368%float
    ∧ targetX 800 g = 384%float
    ∧ update 800 600 demo_rand g = Some (g', out)
    ∧ Player.x (player g') = 396%float
    ∧ clamp (800 - Player.w (player g))
        (smooth (Player.x (player g)) (targetX_per_key 800 g)) = 392%float.
Proof.
  eexists _, _, _. split; [vm_compute; reflexivity|].
  do 7 (split; [vm_compute; reflexivity|]).
  split; [vm_compute; reflexivity|].
  split; vm_compute; reflexivity.
Qed.

(** C7, witness: an external X of 7.5, far outside [[0,1]], leaves the
    player at the right edge of the field. *)
Lemma player_stays_in_field_witness :
  running (by_hand 7.5) = true
  ∧ (0 <=? 800 - Player.w (player (by_hand 7.5)))%float = true
  ∧ is_finite (Player.x (player (by_hand 7.5))) = true
  ∧ is_nan (targetX 800 (by_hand 7.5)) = false
  ∧ ∃ g' out,
      update 800 600 demo_rand (by_hand 7.5) = Some (g', out)
      ∧ (0 <=? Player.x (player g'))%float = true
      ∧ (Player.x (player g') <=? 800 - Player.w (player g'))%float = true.
Proof.
  repeat (split; [reflexivity|]).
  apply (player_stays_in_field 800 600 demo_rand (by_hand 7.5));
    vm_compute; reflexivity.
Defined.

(** C7, counterexample.  The page is loaded, the start button clicked, hand
    control started, and the tracker reports NaN: the next frame leaves
    [player.x] NaN, which is in no interval.  And on a canvas 100 wide,
    narrower than the player, the first frame after the start leaves
    [player.x = 0], above [CANVAS_W - player.w = -20]. *)
Lemma player_out_of_field_counterexample :
  (∃ g',
     run 800 600
       [StartClick; HandControlStarted; HandResults (Some nan);
        AnimationFrame demo_rand] (initial 800 600) = Some g'
     ∧ is_nan (Player.x (player g')) = true
     ∧ (0 <=? Player.x (player g'))%float = false
     ∧ (Player.x (player g') <=? 800 - Player.w (player g'))%float = false)
  ∧ (∃ g',
       run 100 600 [StartClick; AnimationFrame demo_rand] (initial 100 600)
       = Some g'
       ∧ Player.x (player g') = 0%float
       ∧ (Player.x (player g') <=? 100 - Player.w (player g'))%float = false).
Proof.
  split; eexists; (split; [vm_compute; reflexivity|]);
    repeat split; reflexivity.
Qed.

(** C8, counterexample: before the start button is clicked a frame only
    draws, while the four steps in sequence would already advance the spawn
    timer. *)
Lemma frame_sequence_counterexample :
  update 800 600 demo_rand (initial 800 600)
  ≠ tick_in_sequence 800 600 demo_rand (initial 800 600).
Proof.
  intros E.
  apply (f_equal (λ o : option World,
    match o with
    | Some (g, _) => (spawnTimer g =? 0)%float
    | None => false
    end)) in E.
  vm_compute in E. discriminate E.
Qed.

(** C9, witness: one life left, two bones below the miss line and, earlier
    in the array, one above the dog.  The loop settles them last to first:
    both misses, then the catch, which still scores. *)
Lemma loop_continues_after_game_over_witness :
  let g := in_play 1 [bone_over_dog; bone_below_a; bone_below_b] in
  running g = true ∧ lives g = 1%float
  ∧ count (lost 600 (player (control_player 800 g)))
      (map fall (bones (spawn_bones 800 demo_rand g))) = 2
  ∧ ∃ g' out,
      update 800 600 demo_rand g = Some (g', out)
      ∧ running g' = false ∧ lives g' = (-1)%float ∧ score g' = 10%float
      ∧ ∃ drawn,
          out = [SetLivesText 0; GameOverAlertIn50ms;
                 SetLivesText (-1); GameOverAlertIn50ms;
                 SetScoreText 10; Draw drawn; RequestAnimationFrame].
Proof.
  repeat (split; [reflexivity|]).
  destruct (loop_continues_after_game_over 800 600 demo_rand
              (in_play 1 [bone_over_dog; bone_below_a; bone_below_b])
              eq_refl eq_refl eq_refl)
    as (g' & out & Hup & Hrun & Hlives & _ & _ & Hscore & _).
  exists g', out. split; [exact Hup|]. split; [exact Hrun|].
  split; [exact Hlives|]. rewrite Hscore.
  frame_result Hup. split; [reflexivity|]. eexists. reflexivity.
Defined.

(** C10, witness: the pointer was seen at 300; whatever happens next, with
    hand control off the left and right keys give the same player. *)
Lemma pointer_masks_keyboard_witness :
  let g := set_mouseX (Some 300%float) (in_play 3 []) in
  let es := [KeyDown "arrowleft"; AnimationFrame demo_rand; KeyUp "arrowleft"] in
  mouseX g = Some 300%float
  ∧ ∃ g',
      run 800 600 es g = Some g' ∧ mouseX g' = Some 300%float
      ∧ useHandControl g' = false
      ∧ ∃ g1 out1 g2 out2,
          update 800 600 demo_rand (set_keys {[ "arrowleft" := true ]} g')
          = Some (g1, out1)
          ∧ update 800 600 demo_rand (set_keys {[ "arrowright" := true ]} g')
            = Some (g2, out2)
          ∧ player g1 = player g2.
Proof.
  split; [reflexivity|].
  destruct (pointer_masks_keyboard 800 600
              (set_mouseX (Some 300%float) (in_play 3 [])) 300%float
              [KeyDown "arrowleft"; AnimationFrame demo_rand; KeyUp "arrowleft"]
              eq_refl)
    as (g' & m' & Hrun & Hm & Hkeys).
  exists g'. split; [exact Hrun|].
  assert (useHandControl g' = false ∧ m' = 300%float) as [Hoff ->].
  { vm_compute in Hrun. injection Hrun as <-. split; [reflexivity|].
    by injection Hm as <-. }
  split; [exact Hm|]. split; [exact Hoff|].
  exact (proj2 (Hkeys Hoff) demo_rand _ _).
Defined.

(** * The further properties at work *)

(** X1, witness: the state after a click on the start button. *)
Lemma running_means_lives_left_witness :
  ∃ g,
    handle 800 600 StartClick (initial 800 600) = Some (g, [SetScoreText 0; SetLivesText 3])
    ∧ reachable 800 600 g ∧ running g = true ∧ (0 <? lives g)%float = true.
Proof.
  eexists. split; [reflexivity|].
  assert (reachable 800 600
    (set_running true (set_bones [] (set_lives 3 (set_score 0 (initial 800 600))))))
    as Hg by (eapply reachable_handle;
              [apply reachable_initial|
               exact (eq_refl : handle 800 600 StartClick (initial 800 600) = _)]).
  split; [exact Hg|]. split; [reflexivity|].
  exact (running_means_lives_left 800 600 _ Hg eq_refl).
Defined.

(** The page after a click on the start button and eighty frames, a
    reachable state with one bone in the air. *)
Lemma first_spawn_reachable :
  ∃ g,
    run 800 600 (StartClick :: replicate 80 (AnimationFrame demo_rand))
      (initial 800 600) = Some g
    ∧ reachable 800 600 g.
Proof.
  destruct (run_total 800 600
              (StartClick :: replicate 80 (AnimationFrame demo_rand))
              (initial 800 600)) as (g & Hrun).
  exists g. split; [exact Hrun|].
  eapply run_reachable; [apply reachable_initial|exact Hrun].
Defined.

(** X2, witness: the bone spawned on the eightieth frame is in the air,
    neither in the catch zone nor below the miss line. *)
Lemma no_bone_left_to_settle_witness :
  ∃ g b,
    run 800 600 (StartClick :: replicate 80 (AnimationFrame demo_rand))
      (initial 800 600) = Some g
    ∧ reachable 800 600 g
    ∧ bones g = [b]
    ∧ caught (player g) b = false
    ∧ (600 + 50 <? Bone.y b)%float = false.
Proof.
  destruct first_spawn_reachable as (g & Hrun & Hg).
  assert (∃ b, bones g = [b]) as [b Hb].
  { pose proof Hrun as Hc. vm_compute in Hc. injection Hc as <-.
    eexists. reflexivity. }
  exists g, b. split; [exact Hrun|]. split; [exact Hg|]. split; [exact Hb|].
  apply (no_bone_left_to_settle 800 600 g Hg b).
  rewrite Hb. apply list_elem_of_here.
Defined.

(** X3, witness: after the first spawn the timer is back at zero, below the
    interval of 79.5. *)
Lemma spawn_timer_below_interval_witness :
  ∃ g,
    run 800 600 (StartClick :: replicate 80 (AnimationFrame demo_rand))
      (initial 800 600) = Some g
    ∧ reachable 800 600 g
    ∧ (0 <=? spawnTimer g)%float = true
    ∧ (spawnTimer g <? spawnInterval g)%float = true.
Proof.
  destruct first_spawn_reachable as (g & Hrun & Hg).
  exists g. split; [exact Hrun|]. split; [exact Hg|].
  exact (spawn_timer_below_interval 800 600 g Hg).
Defined.

(** X4, witness: of two bones, the one above the dog goes and the one on
    the edge stays. *)
Lemma frame_keeps_bone_order_witness :
  running (in_play 3 [bone_over_dog; bone_on_edge]) = true
  ∧ ∃ g' out new survivors,
      update 800 600 demo_rand (in_play 3 [bone_over_dog; bone_on_edge])
      = Some (g', out)
      ∧ survivors `sublist_of` [bone_over_dog; bone_on_edge] ++ new
      ∧ bones g' = map fall survivors
      ∧ bones g' = [fall bone_on_edge].
Proof.
  split; [reflexivity|].
  destruct (frame_keeps_bone_order 800 600 demo_rand
              (in_play 3 [bone_over_dog; bone_on_edge]) eq_refl)
    as (g' & out & new & survivors & Hup & _ & Hsub & Hb & _).
  exists g', out, new, survivors. split; [exact Hup|].
  split; [exact Hsub|]. split; [exact Hb|].
  frame_result Hup. reflexivity.
Defined.

(** X5, witness: the right arrow stays down through a frame, another key
    and a pointer move. *)
Lemma held_key_stays_held_witness :
  let es := [AnimationFrame demo_rand; KeyDown "a"; MouseMove 10 2] in
  "arrowright" ≠ "__proto__"
  ∧ (KeyUp "arrowright" ∉ es)
  ∧ ∃ g',
      run 800 600 (KeyDown "arrowright" :: es) (in_play 3 []) = Some g'
      ∧ keys g' !! "arrowright" = Some true
      ∧ key_down (keys g') "arrowright" = true.
Proof.
  assert ("arrowright" ≠ "__proto__") as Hk by discriminate.
  assert (KeyUp "arrowright"
          ∉ [AnimationFrame demo_rand; KeyDown "a"; MouseMove 10 2]) as Hes
    by (repeat (apply not_elem_of_cons; split; [discriminate|]);
        apply not_elem_of_nil).
  split; [exact Hk|]. split; [exact Hes|].
  exact (held_key_stays_held 800 600 true "arrowright" _ (in_play 3 [])
           Hk Hes).
Defined.

(** X6, witness: a reading that arrives after hand control was switched
    off does not steer. *)
Lemma late_hand_results_are_ignored_witness :
  let es := [HandResults (Some 0.9%float); AnimationFrame demo_rand] in
  (HandControlStarted ∉ es)
  ∧ ∃ g',
      run 800 600 (HandControlOff :: es) (by_hand 0.2) = Some g'
      ∧ useHandControl g' = false
      ∧ ∀ hx, targetX 800 (set_handXNormalized hx g') = targetX 800 g'.
Proof.
  assert (HandControlStarted
          ∉ [HandResults (Some 0.9%float); AnimationFrame demo_rand]) as Hes
    by (repeat (apply not_elem_of_cons; split; [discriminate|]);
        apply not_elem_of_nil).
  split; [exact Hes|].
  exact (late_hand_results_are_ignored 800 600 HandControlOff _ (by_hand 0.2)
           (or_introl eq_refl) Hes).
Defined.

(** X10, witness: the dog where the page first puts it, with nothing
    pressed, stays there. *)
Lemma player_rests_on_target_witness :
  running (in_play 3 []) = true
  ∧ targetX 800 (in_play 3 []) = Player.x (player (in_play 3 []))
  ∧ (0 <? Player.x (player (in_play 3 [])))%float = true
  ∧ (Player.x (player (in_play 3 []))
     <? 800 - Player.w (player (in_play 3 [])))%float = true
  ∧ ∃ g' out,
      update 800 600 demo_rand (in_play 3 []) = Some (g', out)
      ∧ player g' = player (in_play 3 []).
Proof.
  repeat (split; [reflexivity|]).
  apply (player_rests_on_target 800 600 demo_rand (in_play 3 []));
    reflexivity.
Defined.

(** X11, witness: the pointer position survives a key and a frame. *)
Lemma pointer_keeps_last_position_witness :
  let es := [KeyDown "a"; AnimationFrame demo_rand] in
  forallb (λ e, negb (is_mouse_move e)) es = true
  ∧ ∃ g',
      run 800 600 (MouseMove 310 10 :: es) (in_play 3 []) = Some g'
      ∧ mouseX g' = Some (310 - 10)%float.
Proof.
  split; [reflexivity|].
  exact (pointer_keeps_last_position 800 600 310 10
           [KeyDown "a"; AnimationFrame demo_rand] (in_play 3 []) eq_refl).
Defined.

(** X13, witness: a frame with one bone high in the air. *)
Lemma quiet_frame_witness :
  running (in_play 3 [bone_in_air]) = true
  ∧ ∃ g',
      update 800 600 demo_rand (in_play 3 [bone_in_air])
      = Some (g', [Draw g'; RequestAnimationFrame])
      ∧ bones g' = [fall bone_in_air]
      ∧ score g' = 0%float ∧ lives g' = 3%float ∧ running g' = true.
Proof.
  split; [reflexivity|].
  destruct (quiet_frame 800 600 demo_rand (in_play 3 [bone_in_air]) eq_refl)
    as (g' & Hup & Hb & Hs & Hl & Hr).
  { intros b Hb. apply list_elem_of_In in Hb. vm_compute in Hb.
    destruct Hb as [<-|[]]. split; reflexivity. }
  exists g'. split; [exact Hup|]. rewrite Hb, Hs, Hl, Hr.
  repeat split; reflexivity.
Defined.

(** X14, witness: the dog after the first spawn. *)
Lemma dog_only_moves_sideways_witness :
  ∃ g,
    run 800 600 (StartClick :: replicate 80 (AnimationFrame demo_rand))
      (initial 800 600) = Some g
    ∧ reachable 800 600 g
    ∧ Player.y (player g) = (600 - 80)%float
    ∧ Player.w (player g) = 120%float
    ∧ Player.h (player g) = 80%float
    ∧ Player.speed (player g) = 8%float.
Proof.
  destruct first_spawn_reachable as (g & Hrun & Hg).
  exists g. split; [exact Hrun|]. split; [exact Hg|].
  exact (dog_only_moves_sideways 800 600 g Hg).
Defined.

(** X15, witness: the pointer far to the right of the canvas, then a
    tracker reading of 7.5; the next frame leaves the dog in the field. *)
Lemma dog_stays_in_field_from_page_load_witness :
  let es := [StartClick; MouseMove 1000 8; HandControlStarted;
             HandResults (Some 7.5%float); AnimationFrame demo_rand] in
  is_finite (800 / 2) = true
  ∧ is_finite (800 - 120) = true
  ∧ (0 <? 800 - 120)%float = true
  ∧ forallb numeric_event es = true
  ∧ ∃ g g' out,
      run 800 600 es (initial 800 600) = Some g
      ∧ running g = true
      ∧ update 800 600 demo_rand g = Some (g', out)
      ∧ (0 <=? Player.x (player g'))%float = true
      ∧ (Player.x (player g') <=? 800 - 120)%float = true.
Proof.
  repeat (split; [reflexivity|]).
  destruct (dog_stays_in_field_from_page_load 800 600
              [StartClick; MouseMove 1000 8; HandControlStarted;
               HandResults (Some 7.5%float); AnimationFrame demo_rand]
              demo_rand eq_refl eq_refl eq_refl eq_refl)
    as (g & Hrun & Hframe).
  assert (running g = true) as Hr.
  { pose proof Hrun as Hc. vm_compute in Hc. by injection Hc as <-. }
  destruct (Hframe Hr) as (g' & out & Hup & H0 & Hhi).
  by exists g, g', out.
Defined.
